(** * Telegram message analyzer: filtering, transcript and response parsing

    A shallow embedding of the message pipeline of [main.py]
    ([filter_and_extend_messages], [get_date_range], the body of
    [generate_summaries] and the part of [analyze_messages] that follows the
    fetch), with the properties the design specification states about it. *)

From Stdlib Require Import ZArith Ascii String DecimalString Sorting.Sorted.
From stdpp Require Import base list gmap sets.

Local Open Scope Z_scope.

(** ** Python strings

    A Python [str] is a sequence of Unicode code points; indices, [find] and
    slices count code points.  Integers are unbounded, so indices are [Z] and
    [find] keeps its [-1] for "not found". *)

Module PyStr.

Definition char := N.
Abbreviation str := (list char).

(** An ASCII literal of the source as a [str]. *)
Definition lit (x : string) : str := N_of_ascii <$> list_ascii_of_string x.

Definition newline : char := 10%N.       (* '\n' *)
Definition colon : char := 58%N.         (* ':' *)
Definition at_sign : char := 64%N.       (* '@' *)
Definition lbracket : char := 91%N.      (* '[' *)
Definition rbracket : char := 93%N.      (* ']' *)
Definition money_bag : char := 128176%N. (* U+1F4B0 *)
Definition lenticular : char := 12304%N. (* U+3010, left black lenticular bracket *)

(** [len(s)], of a string or of a list. *)
Definition len {A} (s : list A) : Z := Z.of_nat (length s).

(** [s.startswith(p)] *)
Fixpoint starts_with (p s : str) : bool :=
  match p, s with
  | [], _ => true
  | _ :: _, [] => false
  | a :: p', b :: s' => bool_decide (a = b) && starts_with p' s'
  end.

(** Index of the first occurrence of [sub] in [s], counted from [i]. *)
Fixpoint find_at (sub s : str) (i : Z) : Z :=
  if starts_with sub s then i
  else match s with
       | [] => -1
       | _ :: s' => find_at sub s' (i + 1)
       end.

(** [s.find(sub)] *)
Definition find (s sub : str) : Z := find_at sub s 0.

(** How Python turns a slice or start index into a position of [0..len]. *)
Definition clamp (n i : Z) : Z :=
  if i <? 0 then Z.max 0 (i + n) else Z.min i n.

(** [s.find(sub, start)] *)
Definition find_from (s sub : str) (start : Z) : Z :=
  let a := clamp (len s) start in
  if len s <? start then -1
  else find_at sub (drop (Z.to_nat a) s) a.

(** [sub in s] *)
Definition contains (sub s : str) : bool := 0 <=? find s sub.

(** [s[a:b]] and [s[a:]] *)
Definition slice (s : str) (a b : Z) : str :=
  let a' := clamp (len s) a in
  let b' := clamp (len s) b in
  take (Z.to_nat (b' - a')) (drop (Z.to_nat a') s).

Definition slice_from (s : str) (a : Z) : str :=
  drop (Z.to_nat (clamp (len s) a)) s.

(** [c.isspace()] for one code point, the test behind [strip()] and [split()]. *)
Definition is_space (c : char) : bool :=
  let n := Z.of_N c in
  ((9 <=? n) && (n <=? 13)) || ((28 <=? n) && (n <=? 32))
  || (n =? 133) || (n =? 160) || (n =? 5760)
  || ((8192 <=? n) && (n <=? 8202))
  || (n =? 8232) || (n =? 8233) || (n =? 8239) || (n =? 8287) || (n =? 12288).

Fixpoint lstrip_by (p : char -> bool) (s : str) : str :=
  match s with
  | c :: s' => if p c then lstrip_by p s' else s
  | [] => []
  end.

Definition rstrip_by (p : char -> bool) (s : str) : str :=
  reverse (lstrip_by p (reverse s)).

Definition strip_by (p : char -> bool) (s : str) : str :=
  rstrip_by p (lstrip_by p s).

(** [s.strip()] *)
Definition strip (s : str) : str := strip_by is_space s.

(** [s.strip(chars)] *)
Definition strip_chars (chars s : str) : str :=
  strip_by (fun c => bool_decide (c ∈ chars)) s.

(** [s.split(sep)] for a one-character separator: every occurrence splits. *)
Fixpoint split_char (sep : char) (s : str) : list str :=
  match s with
  | [] => [[]]
  | c :: s' =>
      if bool_decide (c = sep) then [] :: split_char sep s'
      else match split_char sep s' with
           | w :: ws => (c :: w) :: ws
           | [] => [[c]]
           end
  end.

(** [s.split(sep, 1)]: at most one split, at the first occurrence. *)
Definition split_once (sep s : str) : list str :=
  let i := find s sep in
  if i <? 0 then [s]
  else [slice s 0 i; slice_from s (i + len sep)].

(** [s.split()]: maximal runs of characters that are not white space. *)
Fixpoint split_ws_aux (s : str) (cur : option str) : list str :=
  match s with
  | [] => match cur with Some w => [reverse w] | None => [] end
  | c :: s' =>
      if is_space c
      then match cur with
           | Some w => reverse w :: split_ws_aux s' None
           | None => split_ws_aux s' None
           end
      else split_ws_aux s' (Some (c :: default [] cur))
  end.

Definition split_ws (s : str) : list str := split_ws_aux s None.

(** ["sep".join(parts)] *)
Fixpoint join (sep : str) (parts : list str) : str :=
  match parts with
  | [] => []
  | [p] => p
  | p :: ps => p ++ sep ++ join sep ps
  end.

(** [a < b] and [a <= b] on strings: lexicographic on code points. *)
Fixpoint ltb (a b : str) : bool :=
  match a, b with
  | _, [] => false
  | [], _ :: _ => true
  | x :: a', y :: b' => (x <? y)%N || ((x =? y)%N && ltb a' b')
  end.

Definition leb (a b : str) : bool := negb (ltb b a).

(** [str(n)] for an [int]. *)
Definition of_int (n : Z) : str := lit (NilZero.string_of_int (Z.to_int n)).

End PyStr.

Import PyStr.

(** ** Exceptions

    The source guards every list index it takes; the embedding keeps an
    indexing that can fail, so that "does not raise" is a statement about the
    guards and not a property of the encoding. *)

Inductive exn := IndexError | NameError | OtherError (msg : str).

Inductive result (A : Type) :=
  | Ok (a : A)
  | Raise (e : exn).
Arguments Ok {A} a.
Arguments Raise {A} e.

#[global] Instance result_ret : MRet result := fun _ a => Ok a.

#[global] Instance result_bind : MBind result := fun _ _ k r =>
  match r with
  | Ok a => k a
  | Raise e => Raise e
  end.

(** [xs[i]] for [i >= 0]; a negative [i] counts from the end. *)
Definition index {A} (xs : list A) (i : Z) : result A :=
  let j := if i <? 0 then i + Z.of_nat (length xs) else i in
  if j <? 0 then Raise IndexError
  else match xs !! Z.to_nat j with
       | Some x => Ok x
       | None => Raise IndexError
       end.

(** ** Messages

    The dictionary the fetch builds for each message ([msg_dict] of
    [fetch_messages]).  [sender_id] is [None] when the sender could not be
    resolved, [forwarded_from] is [None] unless the message is forwarded and
    the key [reply_to_msg_id] exists only on replies, so [msg.get] of it gives
    [None] elsewhere.  [datetime] is the ISO rendering of the date, a string. *)

Record Message := {
  id : Z;
  datetime : str;
  timestamp : str;
  text : str;
  sender_name : str;
  sender_id : option Z;
  is_reply : bool;
  is_forwarded : bool;
  forwarded_from : option str;
  reply_to_msg_id : option Z
}.

(** [str(x)] and the f-string rendering of a value that may be [None]. *)
Definition str_of_opt_int (x : option Z) : str :=
  match x with Some n => of_int n | None => lit "None" end.

Definition str_of_opt_str (x : option str) : str :=
  match x with Some s => s | None => lit "None" end.

(** An entry of [target_users]: a user name or a numeric identifier. *)
Inductive Target :=
  | TName (u : str)
  | TId (n : Z).

(** ** Filtering and context extension *)

Section Filter.

(** [str.lower]: the Unicode case tables belong to the Python runtime, not to
    the repository. *)
Variable lower : str -> str.

(** [u.lower().strip('@')] *)
Definition normalize (u : str) : str := strip_chars [at_sign] (lower u).

(** [[u.lower().strip('@') if isinstance(u, str) else str(u) for u in target_users]] *)
Definition target_users_lower (target_users : list Target) : list str :=
  (fun u => match u with TName s => normalize s | TId n => of_int n end)
    <$> target_users.

(** The test of the filtering loop. *)
Definition is_from_target (targets : list str) (msg : Message) : bool :=
  let sender_name := normalize (sender_name msg) in
  let sender_id := str_of_opt_int (sender_id msg) in
  bool_decide (sender_name ∈ targets) || bool_decide (sender_id ∈ targets).

(** [msg.get("is_reply") and msg.get("reply_to_msg_id")]: a reply whose
    target id is neither [None] nor [0]. *)
Definition reply_reference (msg : Message) : option Z :=
  if is_reply msg then
    match reply_to_msg_id msg with
    | Some r => if r =? 0 then None else Some r
    | None => None
    end
  else None.

Definition context_message_ids (filtered_messages : list Message) : gset Z :=
  list_to_set (omap reply_reference filtered_messages).

Definition filtered_ids (filtered_messages : list Message) : gset Z :=
  list_to_set (id <$> filtered_messages).

Definition context_messages (messages filtered_messages : list Message)
  : list Message :=
  filter
    (fun msg => bool_decide (id msg ∈ context_message_ids filtered_messages)
                && negb (bool_decide (id msg ∈ filtered_ids filtered_messages)))
    messages.

Definition filter_and_extend_messages
    (messages : list Message) (target_users : option (list Target))
  : list Message * list Message :=
  match target_users with
  | None | Some [] => (messages, messages)
  | Some ((_ :: _) as tu) =>
      let targets := target_users_lower tu in
      let filtered_messages :=
        filter (fun msg => is_from_target targets msg) messages in
      let extended_messages :=
        filtered_messages ++ context_messages messages filtered_messages in
      (filtered_messages, extended_messages)
  end.

End Filter.

(** ** Date range *)

Record DateRange := { earliest : option str; latest : option str }.

Definition get_date_range (messages : list Message) : DateRange :=
  match messages with
  | [] => {| earliest := None; latest := None |}
  | first :: _ =>
      {| earliest := Some (timestamp (List.last messages first));
         latest := Some (timestamp first) |}
  end.

(** ** Grouping by participant

    A Python dictionary keeps its keys in insertion order; the names are later
    joined in that order, so the grouping is an association list. *)

Fixpoint add_message (name : str) (msg : Message)
    (participants : list (str * list Message)) : list (str * list Message) :=
  match participants with
  | [] => [(name, [msg])]
  | (n, l) :: rest =>
      if decide (n = name) then (n, l ++ [msg]) :: rest
      else (n, l) :: add_message name msg rest
  end.

Definition organize_by_participant (messages : list Message)
  : list (str * list Message) :=
  foldl (fun participants msg => add_message (sender_name msg) msg participants)
        [] messages.

(** ** Transcript *)

(** [sorted(xs, key=...)] with string keys.  Python's sort is stable, and a
    stable sort is determined by the order of the keys: insertion from the
    right, each element stopping before the first key that is not smaller. *)
Fixpoint insert_by {A} (key : A -> str) (x : A) (l : list A) : list A :=
  match l with
  | [] => [x]
  | y :: r => if ltb (key y) (key x) then y :: insert_by key x r else x :: l
  end.

Definition sorted_by {A} (key : A -> str) (l : list A) : list A :=
  foldr (insert_by key) [] l.

Definition format_message (msg : Message) : str :=
  if is_forwarded msg then
    lit "[" ++ timestamp msg ++ lit "] " ++ sender_name msg
      ++ lit " shared content originally by "
      ++ str_of_opt_str (forwarded_from msg) ++ lit ": " ++ text msg
  else
    lit "[" ++ timestamp msg ++ lit "] " ++ sender_name msg ++ lit ": "
      ++ text msg.

Definition all_formatted_messages (extended_messages : list Message)
  : list str :=
  format_message <$> sorted_by datetime extended_messages.

Definition all_messages_text (extended_messages : list Message) : str :=
  join [newline] (all_formatted_messages extended_messages).

(** ** Trader names *)

Definition from_marker : str := lit "from: " ++ [money_bag].

(** The body of the [try] for one message: the name it adds, if any. *)
Definition extract_trader_name (message_text : str) : result (option str) :=
  if contains from_marker message_text || contains [money_bag] message_text then
    if contains [money_bag] message_text && contains [lenticular] message_text
    then
      let trader_start := find message_text [money_bag] + 1 in
      let trader_end := find message_text [lenticular] in
      if (trader_start >? 0) && (trader_end >? trader_start) then
        let trader_name := strip (slice message_text trader_start trader_end) in
        Ok (if bool_decide (trader_name = []) then None else Some trader_name)
      else Ok None
    else if contains from_marker message_text then
      let parts := split_once from_marker message_text in
      if len parts >? 1 then
        tail ← index parts 1;
        if bool_decide (strip tail = []) then Ok None
        else
          tail ← index parts 1;
          word ← index (split_ws tail) 0;
          let trader_name := strip word in
          Ok (if bool_decide (trader_name = []) then None else Some trader_name)
      else Ok None
    else Ok None
  else Ok None.

(** The loop with its [try ... except Exception: continue], for any body. *)
Definition collect_names (body : str -> result (option str))
    (messages : list Message) : gset str :=
  foldl (fun names msg =>
           match body (text msg) with
           | Ok (Some name) => names ∪ {[name]}
           | Ok None => names
           | Raise _ => names
           end) ∅ messages.

(** [sorted(list(trader_names))] *)
Definition trader_names (extended_messages : list Message) : list str :=
  sorted_by (fun name => name)
            (elements (collect_names extract_trader_name extended_messages)).

(** ** Parsing the model's response *)

Definition fence : str := lit "```".
Definition overall_marker : str := lit "```overall".
Definition participants_marker : str := lit "```participants".

Definition parse_overall (unified_response : str) : option str :=
  if contains overall_marker unified_response && contains fence unified_response
  then
    let overall_start := find unified_response overall_marker + 10 in
    let overall_end := find_from unified_response fence overall_start in
    if overall_end >? overall_start
    then Some (strip (slice unified_response overall_start overall_end))
    else None
  else None.

(** One line of the participants block, applied to the dictionary so far. *)
Definition process_line (participant_summaries : gmap str str) (line : str)
  : result (gmap str str) :=
  if contains [rbracket] line && contains [lbracket] line then
    let participant_start := find line [lbracket] + 1 in
    let participant_end := find line [rbracket] in
    if participant_end >? participant_start then
      let participant := slice line participant_start participant_end in
      let summary_start := find_from line [colon] participant_end + 1 in
      if summary_start >? 0 then
        let summary := strip (slice_from line summary_start) in
        Ok (<[participant := summary]> participant_summaries)
      else Ok participant_summaries
    else Ok participant_summaries
  else if contains [colon] line then
    let parts := split_once [colon] line in
    if len parts =? 2 then
      name ← index parts 0;
      rest ← index parts 1;
      Ok (<[strip name := strip rest]> participant_summaries)
    else Ok participant_summaries
  else Ok participant_summaries.

Fixpoint process_lines (participant_summaries : gmap str str)
    (lines : list str) : result (gmap str str) :=
  match lines with
  | [] => Ok participant_summaries
  | line :: rest =>
      d ← process_line participant_summaries line;
      process_lines d rest
  end.

Definition participants_text (unified_response : str) : option str :=
  if contains participants_marker unified_response
     && contains fence unified_response
  then
    let participants_start := find unified_response participants_marker + 14 in
    let participants_end :=
      find_from unified_response fence participants_start in
    if participants_end >? participants_start
    then Some (strip (slice unified_response participants_start participants_end))
    else None
  else None.

Definition parse_participants (unified_response : str)
  : result (gmap str str) :=
  match participants_text unified_response with
  | Some block => process_lines ∅ (split_char newline block)
  | None => Ok ∅
  end.

(** The parser of [generate_summaries]: what it returns for a response. *)
Definition parse_response (unified_response : str)
  : result (str * gmap str str) :=
  let overall_summary := parse_overall unified_response in
  participant_summaries ← parse_participants unified_response;
  let overall_summary := default unified_response overall_summary in
  Ok (overall_summary, participant_summaries).

(** ** Summaries and the result record *)

(** One call of [generate_summary_with_ai]: its three arguments. *)
Record Call := { call_text : str; call_model : str; call_prompt : str }.

Record MessageCount := { total : Z; filtered : Z; with_context : Z }.

Record Success := {
  chat_title : str;
  target_users : option (list Target);
  message_count : MessageCount;
  date_range : DateRange;
  overall_summary : option str;
  by_participant : gmap str str
}.

Inductive Results :=
  | StatusInfo (message chat : str)
  | StatusError (message : str)
  | StatusSuccess (r : Success).

Section Pipeline.

Variable lower : str -> str.

(** The collaborators outside the core: the prompt file reader, Python's
    [str.format], the rendering [str(e)] of an exception and the model call. *)
Variable get_prompt : str -> result str.
Variable format_prompt : str -> str -> str -> result str.
Variable str_of_exn : exn -> str.
Variable generate_summary_with_ai : str -> str -> str -> result str.

(** A computation that records the model calls it makes. *)
Definition Traced (A : Type) : Type := A * list Call.

Definition error_summary (e : exn) : str * gmap str str :=
  (lit "Error generating unified summary: " ++ str_of_exn e, ∅).

Definition generate_summaries (extended_messages : list Message)
    (participants : list (str * list Message)) (model : str)
  : Traced (str * gmap str str) :=
  let text := all_messages_text extended_messages in
  let participant_names := fst <$> participants in
  let participants_str :=
    match participant_names with
    | [] => lit "None"
    | _ => join (lit ", ") participant_names
    end in
  (* the first [try]: a failure is logged and leaves [prompt] unbound *)
  let prompt :=
    template ← get_prompt (lit "overall_prompt");
    format_prompt template participants_str text in
  (* the second [try] *)
  match prompt with
  | Raise _ => (error_summary NameError, [])
  | Ok prompt =>
      let call :=
        {| call_text := text; call_model := model; call_prompt := prompt |} in
      match generate_summary_with_ai text model prompt with
      | Raise e => (error_summary e, [call])
      | Ok unified_response =>
          match parse_response unified_response with
          | Ok parsed => (parsed, [call])
          | Raise e => (error_summary e, [call])
          end
      end
  end.

(** [analyze_messages] from the fetched messages on. *)
Definition analyze_messages (unread_only : bool) (messages : list Message)
    (title : str) (targets : option (list Target)) (model : str)
  : Traced Results :=
  match messages with
  | [] =>
      if unread_only
      then (StatusInfo (lit "No unread messages found in the specified chat")
                       title, [])
      else (StatusError (lit "No messages found in the specified chat"), [])
  | _ :: _ =>
      let '(filtered_messages, extended_messages) :=
        filter_and_extend_messages lower messages targets in
      let participants := organize_by_participant extended_messages in
      let '(overall, participant_summaries, calls) :=
        match extended_messages with
        | [] => (None, ∅, [])
        | _ :: _ =>
            let '((overall, by_name), calls) :=
              generate_summaries extended_messages participants model in
            (Some overall, by_name, calls)
        end in
      (StatusSuccess
         {| chat_title := title;
            target_users := targets;
            message_count :=
              {| total := len messages;
                 filtered := len filtered_messages;
                 with_context := len extended_messages |};
            date_range := get_date_range filtered_messages;
            overall_summary := overall;
            by_participant := participant_summaries |},
       calls)
  end.

End Pipeline.

(** The ASCII part of [str.lower], enough for the examples below. *)
Definition ascii_lower (s : str) : str :=
  (fun c : char => if ((65 <=? c) && (c <=? 90))%N then (c + 32)%N else c) <$> s.

(** ** Notions the specification uses *)

(** The normalisation as the specification words it: lower case, then one
    leading [@] removed. *)
Definition spec_normalize (lower : str -> str) (u : str) : str :=
  match lower u with
  | c :: rest => if bool_decide (c = at_sign) then rest else c :: rest
  | [] => []
  end.

Definition spec_selected (lower : str -> str) (targets : list Target)
    (msg : Message) : bool :=
  let tokens :=
    (fun u => match u with
              | TName s => spec_normalize lower s
              | TId n => of_int n
              end) <$> targets in
  bool_decide (spec_normalize lower (sender_name msg) ∈ tokens)
  || bool_decide (str_of_opt_int (sender_id msg) ∈ tokens).

(** Lines of a text: none for the empty text, else one more than its
    newlines. *)
Definition line_count (s : str) : nat :=
  match s with
  | [] => 0
  | _ => S (length (filter (fun c => c = newline) s))
  end.

(** A string that neither starts nor ends with a character of [p]: what
    stripping leaves. *)
Definition trimmed (p : char -> bool) (s : str) : Prop :=
  (forall c, head s = Some c -> p c = false)
  /\ (forall c, last s = Some c -> p c = false).

(** ** A small conversation, newest first

    Bob answers Alice; Carol's message is unrelated. *)

Definition sample_message (n : Z) (minute sender body : string)
    (sid : Z) (reply : option Z) : Message :=
  {| id := n;
     datetime := lit "2024-01-01T10:" ++ lit minute ++ lit ":00+00:00";
     timestamp := lit "2024-01-01 10:" ++ lit minute ++ lit ":00";
     text := lit body;
     sender_name := lit sender;
     sender_id := Some sid;
     is_reply := bool_decide (is_Some reply);
     is_forwarded := false;
     forwarded_from := None;
     reply_to_msg_id := reply |}.

Definition bob_reply : Message :=
  sample_message 3 "02" "@bob" "agreed" 20 (Some 1).
Definition carol_note : Message :=
  sample_message 2 "01" "Carol C" "lunch?" 30 None.
Definition alice_question : Message :=
  sample_message 1 "00" "@alice" "shall we?" 10 None.

Definition sample_chat : list Message :=
  [bob_reply; carol_note; alice_question].

(** Non-decreasing keys, in Python's order of strings. *)
Definition key_le {A} (key : A -> str) (x y : A) : Prop :=
  leb (key x) (key y) = true.

(** A message none of whose rendered fields holds a newline. *)
Definition single_line (msg : Message) : Prop :=
  (newline ∉ timestamp msg) /\ (newline ∉ sender_name msg)
  /\ (newline ∉ text msg)
  /\ (forall source, forwarded_from msg = Some source -> newline ∉ source).

(** A message over two lines. *)
Definition two_line_message : Message :=
  {| id := 9;
     datetime := lit "2024-01-01T10:07:00+00:00";
     timestamp := lit "2024-01-01 10:07:00";
     text := lit "first" ++ [newline] ++ lit "second";
     sender_name := lit "@bob";
     sender_id := Some 20;
     is_reply := false;
     is_forwarded := false;
     forwarded_from := None;
     reply_to_msg_id := None |}.

(** Stand-ins for the collaborators, for running the pipeline on the sample
    chat: a one-line template, a [format] that appends the two arguments, and
    a model that answers with an overall block. *)
Definition sample_get_prompt (name : str) : result str :=
  Ok (lit "Summarise for ").
Definition sample_format_prompt (template participants messages : str)
  : result str :=
  Ok (template ++ participants ++ [newline] ++ messages).
Definition sample_str_of_exn (e : exn) : str := lit "failure".
Definition sample_model (text model prompt : str) : result str :=
  Ok (lit "```overall" ++ [newline] ++ lit "They agreed." ++ [newline]
        ++ lit "```").

Definition sample_analysis (targets : option (list Target)) : Traced Results :=
  analyze_messages ascii_lower sample_get_prompt sample_format_prompt
    sample_str_of_exn sample_model false sample_chat (lit "Team")
    targets (lit "openai/o4-mini-high").

(** Occurrences of a substring: [sub] lies in [s] at offset [k], and does so
    for the first time. *)
Definition occurs_at (sub s : str) (k : nat) : Prop :=
  sub `prefix_of` drop k s.

Definition first_at (sub s : str) (k : nat) : Prop :=
  occurs_at sub s k /\ forall j, (j < k)%nat -> ~ occurs_at sub s j.

(** The offset [find] computes, as a natural number. *)
Fixpoint first_index (sub s : str) : option nat :=
  if starts_with sub s then Some 0%nat
  else match s with
       | [] => None
       | _ :: s' => S <$> first_index sub s'
       end.

(** The overall section of a response: the first overall marker, then a
    content that is not empty, then the first fence after the marker. *)
Definition overall_section (raw pre content post : str) : Prop :=
  raw = pre ++ overall_marker ++ content ++ fence ++ post
  /\ first_at overall_marker raw (length pre)
  /\ first_at fence (content ++ fence ++ post) (length content)
  /\ content <> [].

(** What a line of the participants block does to the dictionary: it records
    a summary under a name, or it leaves the dictionary as it is. *)
Definition records (line name summary : str) : Prop :=
  forall d : gmap str str, process_line d line = Ok (<[name := summary]> d).

Definition skips (line : str) : Prop :=
  forall d : gmap str str, process_line d line = Ok d.

(** Messages that carry trader names, one in each convention, one name
    twice, and a body that fails on every message. *)
Definition trade_message (n : Z) (body : str) : Message :=
  {| id := n;
     datetime := lit "2024-01-01T10:00:00+00:00";
     timestamp := lit "2024-01-01 10:00:00";
     text := body;
     sender_name := lit "Signals";
     sender_id := Some 40;
     is_reply := false;
     is_forwarded := false;
     forwarded_from := None;
     reply_to_msg_id := None |}.

Definition trades : list Message :=
  [trade_message 1 ([money_bag] ++ lit " Zed " ++ [lenticular] ++ lit "long");
   trade_message 2 (lit "copy from: " ++ [money_bag] ++ lit "Amy  now");
   trade_message 3 ([money_bag] ++ lit "Zed" ++ [lenticular]);
   trade_message 4 (lit "no trader here")].

Definition failing_body (message_text : str) : result (option str) :=
  Raise IndexError.

(** The distinct elements of a list of names, in the order in which they
    first appear. *)
Fixpoint first_occurrences (names : list str) : list str :=
  match names with
  | [] => []
  | name :: rest =>
      name :: filter (fun other => other <> name) (first_occurrences rest)
  end.

(** The participants section of a response: the first participants marker,
    a content, and the first fence after the marker. *)
Definition participants_section (raw pre content post : str) : Prop :=
  raw = pre ++ participants_marker ++ content ++ fence ++ post
  /\ first_at participants_marker raw (length pre)
  /\ first_at fence (content ++ fence ++ post) (length content).

(** The prompt of a request as [generate_summaries] builds it, or the
    failure to build it. *)
Definition built_prompt (get_prompt : str -> result str)
    (format_prompt : str -> str -> str -> result str)
    (extended : list Message) (participants : list (str * list Message))
  : result str :=
  get_prompt (lit "overall_prompt") ≫=
    fun template =>
      format_prompt template
        (match fst <$> participants with
         | [] => lit "None"
         | _ => join (lit ", ") (fst <$> participants)
         end)
        (all_messages_text extended).

(** A prompt loader that finds no file, and a model that is unreachable. *)
Definition missing_prompt (name : str) : result str :=
  Raise (OtherError (lit "Prompt not found and no default provided.")).
Definition unreachable_model (text model prompt : str) : result str :=
  Raise (OtherError (lit "connection refused")).

(** ** Formatting the result ([utils/formatters.py]) *)

(** [clean_summary]; [None] and the empty string take the same branch. *)
Definition clean_summary (summary : str) : str :=
  if bool_decide (summary = []) then lit "No summary available."
  else if starts_with (lit "Error generating") summary
  then lit "*" ++ summary ++ lit "*"
  else if contains (lit "<think>") summary && contains (lit "</think>") summary
  then
    let think_end := find summary (lit "</think>") + len (lit "</think>") in
    strip (slice_from summary think_end)
  else summary.

(** [', '.join(target_users)]: joining raises on an entry that is not a
    string. *)
Fixpoint target_names (targets : list Target) (position : Z)
  : result (list str) :=
  match targets with
  | [] => Ok []
  | TName u :: rest =>
      names ← target_names rest (position + 1);
      Ok (u :: names)
  | TId _ :: _ =>
      Raise (OtherError (lit "sequence item " ++ of_int position
                           ++ lit ": expected str instance, int found"))
  end.

Definition join_targets (targets : list Target) : result str :=
  names ← target_names targets 0;
  Ok (join (lit ", ") names).

Definition counts_line (r : Success) : str :=
  of_int (filtered (message_count r)) ++ lit " (with context: "
    ++ of_int (with_context (message_count r)) ++ lit ")" ++ [newline].

Definition date_range_line (r : Success) : str :=
  str_of_opt_str (earliest (date_range r)) ++ lit " to "
    ++ str_of_opt_str (latest (date_range r)) ++ [newline; newline].

(** The line of the users, present when the target list is a list that is
    not empty. *)
Definition users_line (label : str) (r : Success) : result str :=
  match target_users r with
  | None | Some [] => Ok []
  | Some targets =>
      joined ← join_targets targets;
      Ok (label ++ joined ++ [newline])
  end.

Definition format_as_markdown (r : Success) : result str :=
  users ← users_line (lit "**Users**: ") r;
  Ok (lit "# Telegram Chat Summary: " ++ chat_title r ++ [newline; newline]
        ++ users
        ++ lit "**Messages**: " ++ counts_line r
        ++ lit "**Date Range**: " ++ date_range_line r).

Definition format_as_text (r : Success) : result str :=
  users ← users_line (lit "Users: ") r;
  Ok (lit "Telegram Chat: " ++ chat_title r ++ [newline]
        ++ users
        ++ lit "Messages: " ++ counts_line r
        ++ lit "Date Range: " ++ date_range_line r).

Section Formatters.

(** [json.dumps] belongs to the Python library, and the order in which a
    dictionary lists its entries, the order of insertion, is not kept by the
    finite map. *)
Variable json_dumps : Success -> str.
Variable items : gmap str str -> list (str * str).

Definition format_summary_results (r : Success) : str :=
  lit "# Telegram Chat Analysis: " ++ chat_title r ++ [newline; newline]
    ++ lit "Messages analyzed: " ++ of_int (with_context (message_count r))
    ++ [newline]
    ++ lit "Date Range: " ++ date_range_line r
    ++ clean_summary (default [] (overall_summary r)) ++ [newline; newline]
    ++ lit "## Participant Summaries" ++ [newline; newline]
    ++ concat ((fun entry : str * str =>
                  lit "### " ++ entry.1 ++ [newline; newline]
                    ++ clean_summary entry.2 ++ [newline; newline])
                 <$> items (by_participant r)).

Definition format_results (results : Results) (format_type : str)
  : result str :=
  match results with
  | StatusInfo message _ | StatusError message =>
      Ok (lit "Error: " ++ message)
  | StatusSuccess r =>
      match overall_summary r with
      | Some (_ :: _) => Ok (format_summary_results r)
      | _ =>
          if bool_decide (format_type = lit "json") then Ok (json_dumps r)
          else if bool_decide (format_type = lit "markdown")
          then format_as_markdown r
          else format_as_text r
      end
  end.

End Formatters.

(** ** Fetching ([model/message_analyzer.py]) *)

(** What the platform hands over as the sender of a message or the source
    of a forward: a user, a channel, or something else, which is shown by
    its [str]. *)
Inductive Sender :=
  | User (username first_name last_name : option str)
  | Channel (title : option str)
  | OtherSender (repr : str).

(** The truth value of an attribute that is a string or [None]. *)
Definition truthy (x : option str) : bool :=
  match x with
  | Some (_ :: _) => true
  | _ => false
  end.

Definition get_user_display_name (sender : option Sender) : str :=
  match sender with
  | None => lit "Unknown"
  | Some (User username first_name last_name) =>
      if truthy username then lit "@" ++ default [] username
      else
        let full_name :=
          (if truthy first_name then [default [] first_name] else [])
            ++ (if truthy last_name then [default [] last_name] else []) in
        match full_name with
        | [] => lit "Unknown User"
        | _ => join (lit " ") full_name
        end
  | Some (Channel title) =>
      if truthy title then default [] title else lit "Unknown Channel"
  | Some (OtherSender repr) => repr
  end.

(** The forward header of a message: the name it carries, whether it has a
    [from_id], and what looking that id up gives. *)
Record FwdHeader := {
  from_name : option str;
  has_from_id : bool;
  from_entity : result Sender
}.

(** A message as the platform yields it.  [raw_sender] is the outcome of
    [get_sender()], with the sender's [id]; dates are instants on a line. *)
Record RawMessage := {
  raw_id : Z;
  raw_date : Z;
  raw_text : option str;
  raw_sender : result (option (Sender * Z));
  raw_fwd_from : option FwdHeader;
  raw_is_reply : bool;
  raw_reply_to_msg_id : option Z
}.

Section Fetch.

(** [date.isoformat()] and [date.strftime("%Y-%m-%d %H:%M:%S")]. *)
Variable isoformat : Z -> str.
Variable strftime : Z -> str.

(** A sender that is missing has no [id]: reading it raises, and the
    handler sets both fields. *)
Definition sender_fields (message : RawMessage) : str * option Z :=
  match raw_sender message with
  | Ok (Some (sender, sender_id)) =>
      (get_user_display_name (Some sender), Some sender_id)
  | Ok None | Raise _ => (lit "Unknown", None)
  end.

Definition forwarded_fields (message : RawMessage) : bool * option str :=
  match raw_fwd_from message with
  | None => (false, None)
  | Some fwd =>
      (true,
       Some (if truthy (from_name fwd) then default [] (from_name fwd)
             else if has_from_id fwd then
               match from_entity fwd with
               | Ok entity => get_user_display_name (Some entity)
               | Raise _ => lit "Unknown Source"
               end
             else lit "Unknown Source"))
  end.

Definition msg_dict (message : RawMessage) : Message :=
  {| id := raw_id message;
     datetime := isoformat (raw_date message);
     timestamp := strftime (raw_date message);
     text := default [] (raw_text message);
     sender_name := (sender_fields message).1;
     sender_id := (sender_fields message).2;
     is_reply := raw_is_reply message;
     is_forwarded := (forwarded_fields message).1;
     forwarded_from := (forwarded_fields message).2;
     reply_to_msg_id :=
       if raw_is_reply message then raw_reply_to_msg_id message else None |}.

(** The loop over the messages the platform yields, each of which can fail
    to arrive: it stops at the first message older than [datetime_from] and
    passes over messages without text. *)
Fixpoint fetch_loop (datetime_from : option Z)
    (stream : list (result RawMessage)) : result (list Message) :=
  match stream with
  | [] => Ok []
  | Raise e :: _ => Raise e
  | Ok message :: rest =>
      if match datetime_from with
         | Some from => raw_date message <? from
         | None => false
         end
      then Ok []
      else if negb (truthy (raw_text message))
      then fetch_loop datetime_from rest
      else
        messages ← fetch_loop datetime_from rest;
        Ok (msg_dict message :: messages)
  end.

(** The messages of [fetch_messages]: a failure on the way leaves none. *)
Definition fetch_messages (datetime_from : option Z)
    (stream : list (result RawMessage)) : list Message :=
  match fetch_loop datetime_from stream with
  | Ok messages => messages
  | Raise _ => []
  end.

End Fetch.

(** What the loop guarantees of a message it keeps. *)
Definition well_formed (msg : Message) : Prop :=
  text msg <> []
  /\ (is_forwarded msg = true <-> is_Some (forwarded_from msg))
  /\ (sender_id msg = None -> sender_name msg = lit "Unknown")
  /\ (is_reply msg = false -> reply_to_msg_id msg = None).

(** The ids of the raw messages that arrive. *)
Definition raw_ids (stream : list (result RawMessage)) : list Z :=
  omap (fun r => match r with
                 | Ok message => Some (raw_id message)
                 | Raise _ => None
                 end) stream.

(** Raw messages for the examples: dates are minutes. *)
Definition raw_sample (n date : Z) (body : option str) : RawMessage :=
  {| raw_id := n;
     raw_date := date;
     raw_text := body;
     raw_sender := Ok (Some (User (Some (lit "bob")) None None, 20));
     raw_fwd_from := None;
     raw_is_reply := false;
     raw_reply_to_msg_id := None |}.

Definition raw_stream : list (result RawMessage) :=
  [Ok (raw_sample 5 50 (Some (lit "five")));
   Ok (raw_sample 4 40 None);
   Ok (raw_sample 3 30 (Some (lit "three")));
   Ok (raw_sample 2 20 (Some (lit "two")));
   Raise (OtherError (lit "timeout"))].

(* ------------------------------------------------------------------ *)
(** * Properties *)

(** ** Strings: stripping *)

Section StripFacts.

Variable p : char -> bool.

Lemma lstrip_by_spec (s : str) :
  exists a, s = a ++ lstrip_by p s
            /\ Forall (fun c => p c = true) a
            /\ (forall c, head (lstrip_by p s) = Some c -> p c = false).
Proof.
  induction s as [|c s (a & Hs & Ha & Hh)]; simpl.
  - exists []. split_and!; [done|constructor|discriminate].
  - destruct (p c) eqn:Hc.
    + exists (c :: a). split_and!; [by rewrite <- app_comm_cons, <- Hs|by constructor|done].
    + exists []. split_and!; [done|constructor|]. simpl. by intros ? [= <-].
Qed.

Lemma lstrip_by_suffix (s : str) : lstrip_by p s `suffix_of` s.
Proof. destruct (lstrip_by_spec s) as (a & Hs & _). by exists a. Qed.

Lemma last_lstrip_by (s : str) (c : char) :
  last (lstrip_by p s) = Some c -> last s = Some c.
Proof.
  destruct (lstrip_by_spec s) as (a & Hs & _). intros Hl.
  rewrite Hs. destruct (lstrip_by p s) as [|x r] eqn:E; [done|].
  by rewrite last_app, Hl.
Qed.

Lemma rstrip_by_spec (s : str) :
  exists b, s = rstrip_by p s ++ b
            /\ Forall (fun c => p c = true) b
            /\ (forall c, last (rstrip_by p s) = Some c -> p c = false).
Proof.
  unfold rstrip_by. destruct (lstrip_by_spec (reverse s)) as (a & Hs & Ha & Hh).
  exists (reverse a). split_and!.
  - rewrite <- reverse_app, <- Hs. by rewrite reverse_involutive.
  - by apply Forall_reverse.
  - intros c. rewrite last_reverse. apply Hh.
Qed.

Lemma head_rstrip_by (s : str) (c : char) :
  head (rstrip_by p s) = Some c -> head s = Some c.
Proof.
  destruct (rstrip_by_spec s) as (b & Hs & _). intros Hh.
  rewrite Hs. by destruct (rstrip_by p s).
Qed.

Lemma strip_by_spec (s : str) :
  exists a b, s = a ++ strip_by p s ++ b
              /\ Forall (fun c => p c = true) a
              /\ Forall (fun c => p c = true) b
              /\ trimmed p (strip_by p s).
Proof.
  unfold strip_by.
  destruct (lstrip_by_spec s) as (a & Hs & Ha & Hh).
  destruct (rstrip_by_spec (lstrip_by p s)) as (b & Hl & Hb & Ht).
  exists a, b. split_and!; try done.
  - by rewrite <- Hl.
  - split; [|done]. intros c Hc. apply Hh. by apply head_rstrip_by.
Qed.

(** A string that is already trimmed is its own strip. *)
Lemma lstrip_by_id (s : str) :
  (forall c, head s = Some c -> p c = false) -> lstrip_by p s = s.
Proof. destruct s as [|c s]; [done|]. simpl. intros H. by rewrite (H c). Qed.

Lemma strip_by_trimmed (s : str) : trimmed p s -> strip_by p s = s.
Proof.
  intros [Hh Hl]. unfold strip_by, rstrip_by. rewrite (lstrip_by_id s Hh).
  rewrite lstrip_by_id; [apply reverse_involutive|].
  intros c. rewrite head_reverse. apply Hl.
Qed.

(** Stripping undoes any padding with stripped characters. *)
Lemma lstrip_by_app (a s : str) :
  Forall (fun c => p c = true) a -> lstrip_by p (a ++ s) = lstrip_by p s.
Proof. induction 1 as [|c a Hc _ IH]; simpl; [done|by rewrite Hc]. Qed.

Lemma strip_by_padded (a s b : str) :
  Forall (fun c => p c = true) a -> Forall (fun c => p c = true) b ->
  trimmed p s -> strip_by p (a ++ s ++ b) = s.
Proof.
  intros Ha Hb [Hh Hl]. unfold strip_by. rewrite lstrip_by_app by done.
  destruct s as [|c s].
  - simpl. unfold rstrip_by.
    assert (lstrip_by p b = []) as ->.
    { rewrite <- (app_nil_r b). rewrite lstrip_by_app; done. }
    rewrite reverse_nil. done.
  - rewrite <- app_comm_cons. simpl. rewrite (Hh c) by done.
    unfold rstrip_by. rewrite app_comm_cons, reverse_app.
    rewrite lstrip_by_app by by apply Forall_reverse.
    rewrite lstrip_by_id; [apply reverse_involutive|].
    intros x. rewrite head_reverse. apply Hl.
Qed.

End StripFacts.

(** ** The filter *)

Section FilterFacts.

Variable lower : str -> str.

Lemma filtered_sublist targets (messages : list Message) :
  filter (fun msg => is_from_target lower targets msg) messages
    `sublist_of` messages.
Proof. apply sublist_filter. Qed.

Lemma context_sublist (messages kept : list Message) :
  context_messages messages kept `sublist_of` messages.
Proof. apply sublist_filter. Qed.

Lemma ids_NoDup_sublist (l k : list Message) :
  l `sublist_of` k -> NoDup (id <$> k) -> NoDup (id <$> l).
Proof.
  intros Hsub Hk. eapply sublist_NoDup; [exact Hk|by apply fmap_sublist].
Qed.

Lemma elem_of_context (messages kept : list Message) (msg : Message) :
  msg ∈ context_messages messages kept <->
  msg ∈ messages
  /\ (exists reply, reply ∈ kept /\ reply_reference reply = Some (id msg))
  /\ id msg ∉ (id <$> kept).
Proof.
  unfold context_messages. rewrite list_elem_of_filter.
  rewrite andb_True, negb_True, !bool_decide_spec.
  unfold context_message_ids, filtered_ids.
  rewrite !elem_of_list_to_set, list_elem_of_omap. tauto.
Qed.

Lemma context_ids_fresh (messages kept : list Message) (n : Z) :
  n ∈ (id <$> kept) -> n ∉ (id <$> context_messages messages kept).
Proof.
  intros Hin Hctx. apply list_elem_of_fmap in Hctx as (msg & -> & Hmsg).
  apply elem_of_context in Hmsg. tauto.
Qed.

Lemma unique_id_elem (l : list Message) (a b : Message) :
  NoDup (id <$> l) -> a ∈ l -> b ∈ l -> id a = id b -> a = b.
Proof.
  induction l as [|x l IH]; intros Hnd Ha Hb Hid; [by apply elem_of_nil in Ha|].
  rewrite fmap_cons in Hnd. apply NoDup_cons in Hnd as [Hx Hnd].
  apply elem_of_cons in Ha as [->|Ha], Hb as [->|Hb]; auto.
  - exfalso. apply Hx. rewrite Hid. by apply list_elem_of_fmap_2.
  - exfalso. apply Hx. rewrite <- Hid. by apply list_elem_of_fmap_2.
Qed.

End FilterFacts.

(** C4. Without target participants, absent or empty, both outputs are the
    input itself: same messages, same order. *)
Theorem filter_and_extend_identity lower (messages : list Message) :
  filter_and_extend_messages lower messages None = (messages, messages)
  /\ filter_and_extend_messages lower messages (Some []) = (messages, messages).
Proof. split; reflexivity. Qed.

Lemma reply_reference_Some (reply : Message) (r : Z) :
  reply_reference reply = Some r <->
  is_reply reply = true /\ reply_to_msg_id reply = Some r /\ r <> 0.
Proof.
  unfold reply_reference.
  destruct (is_reply reply); [|by split; [|intros (? & _)]].
  destruct (reply_to_msg_id reply) as [n|]; [|by split; [|intros (_ & ? & _)]].
  destruct (Z.eqb_spec n 0) as [->|Hn]; split.
  - done.
  - by intros (_ & [= <-] & ?).
  - by intros [= <-].
  - by intros (_ & [= <-] & _).
Qed.

(** C1. With pairwise distinct message ids and a non-empty target list, the
    extended output is the filtered list followed by the context messages,
    no id occurs twice in it, and its length is the sum of the two lengths.
    The filtered list is a part of the input in input order; the context
    messages are the messages of the input, in input order, whose id is the
    [reply_to_msg_id] of a filtered message marked [is_reply] (an id that is
    neither missing nor [0]), and that are not themselves filtered. *)
Theorem extended_is_filtered_then_context lower
    (messages : list Message) (targets : list Target) :
  NoDup (id <$> messages) ->
  targets <> [] ->
  let filtered := fst (filter_and_extend_messages lower messages (Some targets)) in
  let extended := snd (filter_and_extend_messages lower messages (Some targets)) in
  let context := context_messages messages filtered in
  extended = filtered ++ context
  /\ (forall msg, msg ∈ context <->
        msg ∈ messages
        /\ (exists reply, reply ∈ filtered
                          /\ is_reply reply = true
                          /\ reply_to_msg_id reply = Some (id msg)
                          /\ id msg <> 0)
        /\ msg ∉ filtered)
  /\ filtered `sublist_of` messages
  /\ context `sublist_of` messages
  /\ NoDup (id <$> extended)
  /\ length extended = (length filtered + length context)%nat.
Proof.
  intros Hnd Hne. destruct targets as [|t ts]; [done|]. simpl.
  set (kept := filter _ messages).
  assert (kept `sublist_of` messages) as Hkept by apply sublist_filter.
  split_and!.
  - done.
  - intros msg. rewrite elem_of_context. split.
    + intros (Hin & (reply & Hreply & Href) & Hid). split_and!; try done.
      * exists reply. split; [done|]. by apply reply_reference_Some.
      * intros Hk. apply Hid. by apply list_elem_of_fmap_2.
    + intros (Hin & (reply & Hreply & Href) & Hk). split_and!; try done.
      * exists reply. split; [done|]. by apply reply_reference_Some.
      * intros Hid. apply list_elem_of_fmap in Hid as (other & Hid & Hother).
        apply Hk. rewrite (unique_id_elem messages msg other); try done.
        by eapply elem_of_sublist.
  - done.
  - apply context_sublist.
  - rewrite fmap_app. apply NoDup_app. split_and!.
    + by eapply ids_NoDup_sublist.
    + intros n. apply context_ids_fresh.
    + eapply ids_NoDup_sublist; [apply context_sublist|done].
  - apply length_app.
Qed.

Lemma extended_is_filtered_then_context_witness :
  let filtered :=
    fst (filter_and_extend_messages ascii_lower sample_chat
           (Some [TName (lit "@Bob")])) in
  NoDup (id <$> sample_chat)
  /\ [TName (lit "@Bob")] <> []
  /\ alice_question ∈ context_messages sample_chat filtered
  /\ (carol_note ∉ context_messages sample_chat filtered)
  /\ NoDup (id <$> snd (filter_and_extend_messages ascii_lower sample_chat
                          (Some [TName (lit "@Bob")]))).
Proof.
  intros filtered.
  assert (NoDup (id <$> sample_chat)) as Hnd.
  { apply (bool_decide_unpack _). vm_compute. exact I. }
  assert ([TName (lit "@Bob")] <> []) as Hne by discriminate.
  pose proof (extended_is_filtered_then_context ascii_lower sample_chat
                [TName (lit "@Bob")] Hnd Hne) as Hthm.
  cbv zeta in Hthm. destruct Hthm as (_ & Hctx & _ & _ & Hnodup & _).
  assert (filtered = [bob_reply]) as Hkept by (vm_compute; reflexivity).
  fold filtered in Hctx. rewrite Hkept in *.
  split_and!; [exact Hnd|exact Hne| | |exact Hnodup].
  - apply Hctx. split_and!.
    + right. right. by left.
    + exists bob_reply. split_and!; [by left|reflexivity|reflexivity|].
      vm_compute. discriminate.
    + intros Hin. apply list_elem_of_singleton in Hin.
      apply (f_equal id) in Hin. vm_compute in Hin. discriminate.
  - intros Hin. apply Hctx in Hin as (_ & (reply & Hreply & _ & Hto & _) & _).
    apply list_elem_of_singleton in Hreply as ->.
    vm_compute in Hto. discriminate.
Defined.

Example sample_chat_for_bob :
  filter_and_extend_messages ascii_lower sample_chat (Some [TName (lit "@Bob")])
  = ([bob_reply], [bob_reply; alice_question]).
Proof. vm_compute. reflexivity. Qed.

Lemma elem_of_target_users_lower lower (targets : list Target) (t : str) :
  t ∈ target_users_lower lower targets <->
  (exists u, TName u ∈ targets /\ t = normalize lower u)
  \/ (exists n, TId n ∈ targets /\ t = of_int n).
Proof.
  unfold target_users_lower. rewrite list_elem_of_fmap. split.
  - intros ([u|n] & -> & Hin); [left|right]; eauto.
  - intros [(u & Hin & ->)|(n & Hin & ->)]; [by exists (TName u)|by exists (TId n)].
Qed.

Lemma Forall_at_sign (a : str) :
  Forall (fun c => bool_decide (c ∈ [at_sign]) = true) a ->
  a = replicate (length a) at_sign.
Proof.
  induction 1 as [|c a Hc _ IH]; [done|]. simpl. rewrite <- IH. f_equal.
  apply bool_decide_eq_true in Hc. by apply list_elem_of_singleton in Hc.
Qed.

(** [strip('@')] removes every [@] at both ends and nothing else. *)
Lemma normalize_spec lower (u : str) :
  exists a b : nat,
    lower u = replicate a at_sign ++ normalize lower u ++ replicate b at_sign
    /\ head (normalize lower u) <> Some at_sign
    /\ last (normalize lower u) <> Some at_sign.
Proof.
  unfold normalize, strip_chars.
  destruct (strip_by_spec (fun c => bool_decide (c ∈ [at_sign])) (lower u))
    as (a & b & Hs & Ha & Hb & Hh & Hl).
  exists (length a), (length b). split_and!.
  - by rewrite <- (Forall_at_sign a), <- (Forall_at_sign b).
  - intros H. apply Hh in H. apply bool_decide_eq_false in H.
    apply H. by apply list_elem_of_singleton.
  - intros H. apply Hl in H. apply bool_decide_eq_false in H.
    apply H. by apply list_elem_of_singleton.
Qed.

(** C6, as the code has it. With a non-empty target list, the filtered output
    is the input restricted, in order, to the messages whose normalised
    sender name or whose sender id rendered as a string equals a target token;
    the tokens are the normalised names and the decimal renderings of the
    numeric targets; normalising lower-cases and then removes every [@] at
    both ends of the string, not only one leading [@]. *)
Theorem filtered_by_exact_token_match lower
    (messages : list Message) (targets : list Target) :
  targets <> [] ->
  let tokens := target_users_lower lower targets in
  fst (filter_and_extend_messages lower messages (Some targets))
  = filter (fun msg => normalize lower (sender_name msg) ∈ tokens
                       \/ str_of_opt_int (sender_id msg) ∈ tokens) messages
  /\ (forall t, t ∈ tokens <->
        (exists u, TName u ∈ targets /\ t = normalize lower u)
        \/ (exists n, TId n ∈ targets /\ t = of_int n))
  /\ (forall u, exists a b : nat,
        lower u = replicate a at_sign ++ normalize lower u ++ replicate b at_sign
        /\ head (normalize lower u) <> Some at_sign
        /\ last (normalize lower u) <> Some at_sign).
Proof.
  intros Hne tokens. split_and!.
  - unfold filter_and_extend_messages. destruct targets as [|t ts]; [done|].
    cbn [fst]. apply list_filter_iff. intros msg. unfold is_from_target.
    by rewrite orb_True, !bool_decide_spec.
  - intros t. apply elem_of_target_users_lower.
  - apply normalize_spec.
Qed.

Lemma filtered_by_exact_token_match_witness :
  [TId 20] <> []
  /\ fst (filter_and_extend_messages ascii_lower sample_chat (Some [TId 20]))
     = [bob_reply].
Proof.
  split; [discriminate|].
  rewrite (proj1 (filtered_by_exact_token_match ascii_lower sample_chat
                    [TId 20] ltac:(discriminate))).
  vm_compute. reflexivity.
Defined.

(** A token that is only a part of the name selects nothing. *)
Example no_substring_match :
  fst (filter_and_extend_messages ascii_lower sample_chat
         (Some [TName (lit "bo"); TName (lit "alic"); TId 2]))
  = [].
Proof. vm_compute. reflexivity. Qed.

(** C6 as the specification words it fails: with one leading [@] removed the
    token [bob@] stays [bob@] and does not equal the sender [@bob], yet the
    code selects the message. *)
Lemma leading_at_only_counterexample :
  let msg := sample_message 7 "05" "@bob" "hello" 20 None in
  let targets := [TName (lit "bob@")] in
  ~ (msg ∈ fst (filter_and_extend_messages ascii_lower [msg] (Some targets))
     <-> spec_selected ascii_lower targets msg = true).
Proof.
  intros msg targets [Hsel _].
  assert (spec_selected ascii_lower targets msg = false) as Hspec
    by (vm_compute; reflexivity).
  rewrite Hsel in Hspec; [discriminate|].
  assert (fst (filter_and_extend_messages ascii_lower [msg] (Some targets))
          = [msg]) as -> by (vm_compute; reflexivity).
  apply list_elem_of_singleton. reflexivity.
Qed.

(** ** The date range *)

(** C8. The range is read off the two ends of the filtered list: the latest
    timestamp is that of its first element, the earliest that of its last
    element, both are [None] for the empty list, and the result record takes
    the range of the filtered list, not of the extended one. *)
Theorem date_range_of_filtered :
  get_date_range [] = {| earliest := None; latest := None |}
  /\ (forall first rest,
        latest (get_date_range (first :: rest)) = Some (timestamp first))
  /\ (forall init final,
        earliest (get_date_range (init ++ [final])) = Some (timestamp final))
  /\ (forall lower get_prompt format_prompt str_of_exn ai
             unread_only messages title targets model,
        match fst (analyze_messages lower get_prompt format_prompt str_of_exn
                     ai unread_only messages title targets model) with
        | StatusSuccess r =>
            date_range r
            = get_date_range
                (fst (filter_and_extend_messages lower messages targets))
        | _ => messages = []
        end).
Proof.
  split_and!.
  - reflexivity.
  - reflexivity.
  - intros init final. destruct init as [|first init]; [reflexivity|].
    unfold get_date_range. cbn [app earliest]. do 2 f_equal.
    rewrite app_comm_cons. apply List.last_last.
  - intros. unfold analyze_messages. destruct messages as [|m ms]; [by destruct unread_only|].
    destruct (filter_and_extend_messages _ _ _) as [kept extended].
    destruct extended; [done|].
    by destruct (generate_summaries _ _ _ _ _ _ _) as [[? ?] ?].
Qed.

(** The context message would have moved the earliest date. *)
Example date_range_ignores_context :
  let '(kept, extended) :=
    filter_and_extend_messages ascii_lower sample_chat
      (Some [TName (lit "@Bob")]) in
  earliest (get_date_range kept) = Some (lit "2024-01-01 10:02:00")
  /\ earliest (get_date_range extended) = Some (lit "2024-01-01 10:00:00").
Proof. vm_compute. split; reflexivity. Qed.

(** ** Strings: the order *)

Lemma ltb_irrefl (a : str) : ltb a a = false.
Proof.
  induction a as [|x a IH]; [done|]. simpl.
  by rewrite N.ltb_irrefl, N.eqb_refl, IH.
Qed.

Lemma ltb_trans (a b c : str) : ltb a b = true -> ltb b c = true -> ltb a c = true.
Proof.
  revert b c. induction a as [|x a IH]; intros [|y b] [|z c]; simpl; try done.
  rewrite !orb_true_iff, !andb_true_iff, !N.ltb_lt, !N.eqb_eq.
  intros [Hxy|[-> Hab]] [Hyz|[-> Hbc]]; try (left; lia).
  right. split; [done|]. by eapply IH.
Qed.

Lemma ltb_asym (a b : str) : ltb a b = true -> ltb b a = false.
Proof.
  intros Hab. destruct (ltb b a) eqn:Hba; [|done].
  by rewrite <- (ltb_irrefl a), <- (ltb_trans a b a Hab Hba).
Qed.

Lemma ltb_total (a b : str) : ltb a b = false -> ltb b a = false -> a = b.
Proof.
  revert b. induction a as [|x a IH]; intros [|y b]; simpl; try done.
  rewrite !orb_false_iff, !andb_false_iff, !N.ltb_ge, !N.eqb_neq.
  intros [Hxy Hab] [Hyx Hba].
  assert (x = y) as -> by lia. f_equal. apply IH.
  - by destruct Hab.
  - by destruct Hba.
Qed.

Lemma leb_refl (a : str) : leb a a = true.
Proof. unfold leb. by rewrite ltb_irrefl. Qed.

Lemma ltb_leb (a b : str) : ltb a b = true -> leb a b = true.
Proof. intros H. unfold leb. by rewrite (ltb_asym a b H). Qed.

Lemma leb_trans (a b c : str) : leb a b = true -> leb b c = true -> leb a c = true.
Proof.
  unfold leb. rewrite !negb_true_iff. intros Hba Hcb.
  destruct (ltb c a) eqn:Hca; [|done].
  destruct (ltb a b) eqn:Hab.
  - by rewrite (ltb_trans c a b Hca Hab) in Hcb.
  - rewrite (ltb_total a b Hab Hba) in Hca. by rewrite Hca in Hcb.
Qed.

Lemma leb_antisym (a b : str) : leb a b = true -> leb b a = true -> a = b.
Proof. unfold leb. rewrite !negb_true_iff. intros H1 H2. by apply ltb_total. Qed.

(** ** Sorting by a string key *)

Section SortFacts.

Context {A : Type} (key : A -> str).

Lemma insert_by_perm (x : A) (l : list A) : insert_by key x l ≡ₚ x :: l.
Proof.
  induction l as [|y l IH]; simpl; [done|].
  destruct (ltb (key y) (key x)); [|done].
  rewrite IH. apply Permutation_swap.
Qed.

Lemma sorted_by_perm (l : list A) : sorted_by key l ≡ₚ l.
Proof.
  induction l as [|x l IH]; simpl; [done|].
  by rewrite insert_by_perm, IH.
Qed.

Lemma insert_by_sorted (x : A) (l : list A) :
  StronglySorted (key_le key) l -> StronglySorted (key_le key) (insert_by key x l).
Proof.
  induction 1 as [|y l Hl IH Hy]; simpl.
  - by repeat constructor.
  - destruct (ltb (key y) (key x)) eqn:Hyx.
    + constructor; [done|]. rewrite insert_by_perm. constructor; [|done].
      by apply ltb_leb.
    + assert (key_le key x y) as Hxy by (unfold key_le, leb; by rewrite Hyx).
      constructor; [by constructor|]. constructor; [done|].
      eapply Forall_impl; [exact Hy|]. intros z Hz. by eapply leb_trans.
Qed.

Lemma sorted_by_sorted (l : list A) : StronglySorted (key_le key) (sorted_by key l).
Proof.
  induction l as [|x l IH]; simpl; [constructor|by apply insert_by_sorted].
Qed.

(** Elements with the same key keep their order. *)
Lemma insert_by_stable (k : str) (x : A) (l : list A) :
  filter (fun y => key y = k) (insert_by key x l)
  = filter (fun y => key y = k) (x :: l).
Proof.
  induction l as [|y l IH]; simpl; [done|].
  destruct (ltb (key y) (key x)) eqn:Hyx; [|done].
  rewrite (filter_cons _ y), IH, !(filter_cons _ x), (filter_cons _ y).
  destruct (decide (key y = k)) as [Hy|Hy], (decide (key x = k)) as [Hx|Hx];
    try done.
  rewrite Hy, Hx, ltb_irrefl in Hyx. done.
Qed.

Lemma sorted_by_stable (k : str) (l : list A) :
  filter (fun y => key y = k) (sorted_by key l) = filter (fun y => key y = k) l.
Proof.
  induction l as [|x l IH]; simpl; [done|].
  by rewrite insert_by_stable, !filter_cons, IH.
Qed.

Lemma length_sorted_by (l : list A) : length (sorted_by key l) = length l.
Proof. apply Permutation_length, sorted_by_perm. Qed.

End SortFacts.

(** ** The sorted order is the only stable one

    Whatever algorithm [sorted] runs, a list in key order that keeps equal
    keys in their input order is the list [sorted_by] builds. *)

Section StableUnique.

Context {A : Type} (key : A -> str).

Lemma stable_sorted_unique (l1 l2 : list A) :
  StronglySorted (key_le key) l1 -> StronglySorted (key_le key) l2 ->
  (forall k, filter (fun y => key y = k) l1 = filter (fun y => key y = k) l2) ->
  l1 = l2.
Proof.
  intros H1. revert l2. induction H1 as [|x l1 Hl1 IH Hx]; intros l2 H2 Hsame.
  - destruct l2 as [|y l2]; [done|]. specialize (Hsame (key y)).
    by rewrite filter_nil, filter_cons_True in Hsame.
  - destruct H2 as [|y l2 Hl2 Hy].
    { specialize (Hsame (key x)). by rewrite filter_nil, filter_cons_True in Hsame. }
    assert (key_le key x y) as Hxy.
    { assert (y ∈ filter (fun z => key z = key y) (x :: l1)) as Hin.
      { rewrite (Hsame (key y)), filter_cons_True by done. by left. }
      apply list_elem_of_filter in Hin as [_ Hin].
      apply elem_of_cons in Hin as [->|Hin]; [apply leb_refl|].
      by apply (proj1 (Forall_forall _ _) Hx). }
    assert (key_le key y x) as Hyx.
    { assert (x ∈ filter (fun z => key z = key x) (y :: l2)) as Hin.
      { rewrite <- (Hsame (key x)), filter_cons_True by done. by left. }
      apply list_elem_of_filter in Hin as [_ Hin].
      apply elem_of_cons in Hin as [->|Hin]; [apply leb_refl|].
      by apply (proj1 (Forall_forall _ _) Hy). }
    pose proof (leb_antisym _ _ Hxy Hyx) as Hkey.
    pose proof (Hsame (key x)) as Hhead.
    rewrite filter_cons_True, (filter_cons_True _ y) in Hhead by done.
    injection Hhead as -> Htail. f_equal. apply IH; [done|].
    intros k. destruct (decide (key y = k)) as [<-|Hk]; [done|].
    specialize (Hsame k). by rewrite !filter_cons_False in Hsame.
Qed.

Lemma sorted_by_unique (l sorted : list A) :
  StronglySorted (key_le key) sorted ->
  (forall k, filter (fun y => key y = k) sorted = filter (fun y => key y = k) l) ->
  sorted = sorted_by key l.
Proof.
  intros Hsorted Hstable. apply stable_sorted_unique; [done|apply sorted_by_sorted|].
  intros k. by rewrite sorted_by_stable.
Qed.

End StableUnique.

(** ** The transcript *)

Lemma not_elem_of_lit_newline (x : string) :
  bool_decide (newline ∉ lit x) = true -> newline ∉ lit x.
Proof. apply bool_decide_eq_true. Qed.

Lemma format_message_single_line (msg : Message) :
  single_line msg -> newline ∉ format_message msg.
Proof.
  intros (Hts & Hname & Htext & Hsrc). unfold format_message.
  assert (newline ∉ str_of_opt_str (forwarded_from msg)) as Hfrom.
  { destruct (forwarded_from msg) as [source|]; simpl; [by apply Hsrc|].
    by apply not_elem_of_lit_newline. }
  destruct (is_forwarded msg); rewrite !not_elem_of_app; split_and!;
    try done; by apply not_elem_of_lit_newline.
Qed.

Lemma format_message_nonempty (msg : Message) : format_message msg <> [].
Proof. unfold format_message. by destruct (is_forwarded msg). Qed.

Lemma join_nonempty (sep : str) (parts : list str) :
  parts <> [] -> Forall (fun part => part <> []) parts -> join sep parts <> [].
Proof.
  intros Hne Hparts. destruct Hparts as [|part rest Hpart _]; [done|].
  simpl. destruct rest; [done|]. by destruct part.
Qed.

Lemma filter_newline_none (part : str) :
  newline ∉ part -> filter (fun c => c = newline) part = [].
Proof.
  induction part as [|c part IH]; [done|]. rewrite not_elem_of_cons.
  intros [Hc Hpart]. rewrite filter_cons_False by done. by apply IH.
Qed.

Lemma line_count_join (parts : list str) :
  Forall (fun part => part <> [] /\ newline ∉ part) parts ->
  line_count (join [newline] parts) = length parts.
Proof.
  induction 1 as [|part rest [Hpart Hnl] Hrest IH]; [done|].
  assert (filter (fun c => c = newline) part = []) as Hnone
    by by apply filter_newline_none.
  destruct rest as [|next rest].
  - simpl. destruct part; [done|]. unfold line_count. by rewrite Hnone.
  - assert (join [newline] (next :: rest) <> []) as Hjoin.
    { apply join_nonempty; [done|]. eapply Forall_impl; [exact Hrest|]. by intros ? [? ?]. }
    change (join [newline] (part :: next :: rest))
      with (part ++ [newline] ++ join [newline] (next :: rest)).
    revert IH Hjoin. generalize (join [newline] (next :: rest)). intros tail IH Hjoin.
    unfold line_count in *. destruct tail as [|c tail]; [done|].
    destruct (part ++ [newline] ++ c :: tail) eqn:E; [by destruct part|].
    rewrite <- E, !filter_app, Hnone. simpl. by rewrite IH.
Qed.

(** C7, as the code has it. The transcript takes the messages in
    non-decreasing order of their [datetime] keys, messages with equal keys in
    their input order, renders each as [[timestamp] sender: text], or as
    [[timestamp] sender shared content originally by source: text] when it is
    forwarded, and joins the renderings with newlines: one rendering per
    message.  The transcript has as many lines as there are messages when no
    rendered field holds a newline; a message whose text spans several lines
    takes several lines. *)
Theorem transcript_in_date_order (messages : list Message) :
  let ordered := sorted_by datetime messages in
  ordered ≡ₚ messages
  /\ StronglySorted (key_le datetime) ordered
  /\ (forall d, filter (fun msg => datetime msg = d) ordered
                = filter (fun msg => datetime msg = d) messages)
  /\ (forall msg, is_forwarded msg = false ->
        format_message msg
        = lit "[" ++ timestamp msg ++ lit "] " ++ sender_name msg ++ lit ": "
            ++ text msg)
  /\ (forall msg source,
        is_forwarded msg = true -> forwarded_from msg = Some source ->
        format_message msg
        = lit "[" ++ timestamp msg ++ lit "] " ++ sender_name msg
            ++ lit " shared content originally by " ++ source ++ lit ": "
            ++ text msg)
  /\ all_messages_text messages = join [newline] (format_message <$> ordered)
  /\ length (all_formatted_messages messages) = length messages
  /\ (Forall single_line messages ->
      line_count (all_messages_text messages) = length messages).
Proof.
  intros ordered. split_and!.
  - apply sorted_by_perm.
  - apply sorted_by_sorted.
  - intros d. apply (sorted_by_stable datetime).
  - intros msg Hfw. unfold format_message. by rewrite Hfw.
  - intros msg source Hfw Hsrc. unfold format_message. by rewrite Hfw, Hsrc.
  - reflexivity.
  - unfold all_formatted_messages. by rewrite length_fmap, length_sorted_by.
  - intros Hlines. unfold all_messages_text.
    rewrite line_count_join.
    + unfold all_formatted_messages. by rewrite length_fmap, length_sorted_by.
    + unfold all_formatted_messages. apply Forall_fmap.
      rewrite (sorted_by_perm datetime messages).
      eapply Forall_impl; [exact Hlines|]. intros msg Hmsg. split.
      * apply format_message_nonempty.
      * by apply format_message_single_line.
Qed.

Lemma single_line_sample (n : Z) (minute sender body : string)
    (sid : Z) (reply : option Z) :
  bool_decide (newline ∉ lit minute) = true ->
  bool_decide (newline ∉ lit sender) = true ->
  bool_decide (newline ∉ lit body) = true ->
  single_line (sample_message n minute sender body sid reply).
Proof.
  intros Hminute Hsender Hbody.
  apply not_elem_of_lit_newline in Hminute, Hsender, Hbody.
  unfold single_line, sample_message.
  cbn [timestamp sender_name text forwarded_from]. split_and!; try done.
  rewrite !not_elem_of_app. split_and!; try done;
    by apply not_elem_of_lit_newline.
Qed.

Lemma transcript_in_date_order_witness :
  Forall single_line sample_chat
  /\ line_count (all_messages_text sample_chat) = 3%nat.
Proof.
  assert (Forall single_line sample_chat) as Hlines.
  { repeat constructor; by apply single_line_sample. }
  split; [exact Hlines|].
  apply (transcript_in_date_order sample_chat). exact Hlines.
Defined.

(** The sample chat comes newest first and leaves oldest first. *)
Example sample_transcript :
  all_messages_text sample_chat
  = lit "[2024-01-01 10:00:00] @alice: shall we?" ++ [newline]
    ++ lit "[2024-01-01 10:01:00] Carol C: lunch?" ++ [newline]
    ++ lit "[2024-01-01 10:02:00] @bob: agreed".
Proof. vm_compute. reflexivity. Qed.

(** C7 as the specification words it fails: one message whose text holds a
    newline gives a transcript of two lines. *)
Lemma transcript_line_count_counterexample :
  line_count (all_messages_text [two_line_message]) = 2%nat
  /\ line_count (all_messages_text [two_line_message])
     <> length [two_line_message].
Proof. split; [vm_compute; reflexivity|vm_compute; discriminate]. Qed.

(** ** The model call *)

Section CallFacts.

Variable lower : str -> str.
Variable get_prompt : str -> result str.
Variable format_prompt : str -> str -> str -> result str.
Variable str_of_exn : exn -> str.
Variable ai : str -> str -> str -> result str.

Lemma generate_summaries_calls (extended : list Message)
    (participants : list (str * list Message)) (model : str) :
  (length (snd (generate_summaries get_prompt format_prompt str_of_exn ai
                  extended participants model)) <= 1)%nat.
Proof.
  unfold generate_summaries.
  destruct (_ ≫= _) as [prompt|e]; [|simpl; lia].
  destruct (ai _ _ _) as [response|e]; [|simpl; lia].
  destruct (parse_response response); simpl; lia.
Qed.

Lemma generate_summaries_one_call (extended : list Message)
    (participants : list (str * list Message)) (model prompt : str) :
  (get_prompt (lit "overall_prompt") ≫=
     fun template =>
       format_prompt template
         (match fst <$> participants with
          | [] => lit "None"
          | _ => join (lit ", ") (fst <$> participants)
          end)
         (all_messages_text extended)) = Ok prompt ->
  snd (generate_summaries get_prompt format_prompt str_of_exn ai
         extended participants model)
  = [{| call_text := all_messages_text extended;
        call_model := model;
        call_prompt := prompt |}].
Proof.
  intros Hprompt. unfold generate_summaries. rewrite Hprompt.
  destruct (ai _ _ _) as [response|e]; [|done].
  by destruct (parse_response response).
Qed.

End CallFacts.

(** C9, as the code has it. A request makes at most one model call; it makes
    none when no message is left after filtering, and exactly one, with the
    whole transcript, when the extended list is not empty and the prompt
    could be built. *)
Theorem model_called_at_most_once lower get_prompt format_prompt str_of_exn ai
    (unread_only : bool) (messages : list Message) (title : str)
    (targets : option (list Target)) (model : str) :
  let calls :=
    snd (analyze_messages lower get_prompt format_prompt str_of_exn ai
           unread_only messages title targets model) in
  let extended := snd (filter_and_extend_messages lower messages targets) in
  (length calls <= 1)%nat
  /\ (extended = [] -> calls = [])
  /\ (messages <> [] -> extended <> [] ->
      forall prompt,
        (get_prompt (lit "overall_prompt") ≫=
           fun template =>
             format_prompt template
               (match fst <$> organize_by_participant extended with
                | [] => lit "None"
                | names => join (lit ", ") names
                end)
               (all_messages_text extended)) = Ok prompt ->
        calls = [{| call_text := all_messages_text extended;
                    call_model := model;
                    call_prompt := prompt |}]).
Proof.
  intros calls extended. subst calls extended. unfold analyze_messages.
  destruct messages as [|m ms].
  - split_and!; [destruct unread_only; simpl; lia|by destruct unread_only|done].
  - destruct (filter_and_extend_messages lower (m :: ms) targets)
      as [kept extended]. cbn [snd].
    destruct extended as [|x extended]; [split_and!; [simpl; lia|done|done]|].
    pose proof (generate_summaries_calls get_prompt format_prompt str_of_exn ai
                  (x :: extended) (organize_by_participant (x :: extended))
                  model) as Hle.
    pose proof (generate_summaries_one_call get_prompt format_prompt
                  str_of_exn ai (x :: extended)
                  (organize_by_participant (x :: extended)) model) as Hone.
    destruct (generate_summaries _ _ _ _ _ _ _) as [[overall by_name] calls].
    cbn [snd] in *. split_and!; [done|done|].
    intros _ _ prompt Hprompt. apply Hone.
    by destruct (fst <$> organize_by_participant (x :: extended)).
Qed.

Lemma model_called_at_most_once_witness :
  sample_chat <> []
  /\ snd (filter_and_extend_messages ascii_lower sample_chat
            (Some [TName (lit "@Bob")])) <> []
  /\ length (snd (sample_analysis (Some [TName (lit "@Bob")]))) = 1%nat.
Proof.
  assert (sample_chat <> []) as Hchat by discriminate.
  assert (snd (filter_and_extend_messages ascii_lower sample_chat
                 (Some [TName (lit "@Bob")])) <> []) as Hext
    by (vm_compute; discriminate).
  split_and!; [exact Hchat|exact Hext|].
  unfold sample_analysis.
  rewrite (proj2 (proj2 (model_called_at_most_once ascii_lower
             sample_get_prompt sample_format_prompt sample_str_of_exn
             sample_model false sample_chat (lit "Team")
             (Some [TName (lit "@Bob")]) (lit "openai/o4-mini-high")))
           Hchat Hext _ eq_refl).
  reflexivity.
Defined.

(** C9 as the specification words it fails: the chat has messages, so the
    request goes on after the fetch, but nobody in it is called Dave, nothing
    is left to summarise and the model is not called at all. *)
Lemma no_call_counterexample :
  (exists r, fst (sample_analysis (Some [TName (lit "dave")])) = StatusSuccess r
             /\ overall_summary r = None)
  /\ length (snd (sample_analysis (Some [TName (lit "dave")]))) <> 1%nat.
Proof.
  split.
  - eexists. split; [vm_compute; reflexivity|reflexivity].
  - vm_compute. discriminate.
Qed.

Example sample_analysis_for_bob :
  exists r, fst (sample_analysis (Some [TName (lit "@Bob")])) = StatusSuccess r
            /\ overall_summary r = Some (lit "They agreed.")
            /\ message_count r = {| total := 3; filtered := 1; with_context := 2 |}.
Proof. eexists. split; [vm_compute; reflexivity|]. split; reflexivity. Qed.

(** ** Strings: searching *)

Lemma starts_with_prefix (sub s : str) :
  starts_with sub s = true <-> sub `prefix_of` s.
Proof.
  revert s. induction sub as [|a sub IH]; intros s; simpl.
  - split; [intros _; apply prefix_nil|done].
  - destruct s as [|b s].
    + split; [done|]. intros [k Hk]. discriminate.
    + rewrite andb_true_iff, bool_decide_eq_true, IH. split.
      * intros [-> Hp]. by apply prefix_cons.
      * intros Hp. split; [by apply prefix_cons_inv_1 in Hp|
                            by apply prefix_cons_inv_2 in Hp].
Qed.

Lemma starts_with_false (sub s : str) :
  starts_with sub s = false <-> ~ sub `prefix_of` s.
Proof. rewrite <- starts_with_prefix. by destruct (starts_with sub s). Qed.

Lemma find_at_first_index (sub s : str) (i : Z) :
  find_at sub s i
  = match first_index sub s with
    | Some k => i + Z.of_nat k
    | None => -1
    end.
Proof.
  revert i. induction s as [|c s IH]; intros i; simpl.
  - destruct (starts_with sub []); simpl; lia.
  - destruct (starts_with sub (c :: s)); simpl; [lia|].
    rewrite IH. destruct (first_index sub s); simpl; lia.
Qed.

Lemma first_index_Some (sub s : str) (k : nat) :
  first_index sub s = Some k <-> first_at sub s k.
Proof.
  unfold first_at, occurs_at. revert k. induction s as [|c s IH]; intros k.
  - simpl. destruct (starts_with sub []) eqn:E.
    + apply starts_with_prefix in E. split.
      * intros [= <-]. split; [done|]. lia.
      * intros [_ Hj]. destruct k; [done|]. destruct (Hj 0%nat); [lia|done].
    + apply starts_with_false in E. split; [done|].
      intros [Hk _]. by rewrite drop_nil in Hk.
  - simpl. destruct (starts_with sub (c :: s)) eqn:E.
    + apply starts_with_prefix in E. split.
      * intros [= <-]. split; [done|]. lia.
      * intros [_ Hj]. destruct k; [done|]. destruct (Hj 0%nat); [lia|done].
    + apply starts_with_false in E. destruct k as [|k].
      * split; [by destruct (first_index sub s)|]. intros [Hk _]. done.
      * destruct (first_index sub s) as [n|]; simpl.
        -- split.
           ++ intros [= <-]. destruct (proj1 (IH n) eq_refl) as [Hn Hj].
              split; [done|]. intros [|j] Hlt; [done|]. apply Hj. lia.
           ++ intros [Hk Hj]. f_equal. f_equal. apply (inj Some).
              apply IH. split; [done|]. intros j Hlt. apply (Hj (S j)). lia.
        -- split; [done|]. intros [Hk Hj].
           assert (None = Some k) as Hbad; [|done].
           apply IH. split; [done|]. intros j Hlt. apply (Hj (S j)). lia.
Qed.

Lemma first_index_None (sub s : str) :
  first_index sub s = None <-> forall j, ~ occurs_at sub s j.
Proof.
  unfold occurs_at. induction s as [|c s IH]; simpl.
  - destruct (starts_with sub []) eqn:E.
    + apply starts_with_prefix in E. split; [done|]. intros H. by destruct (H 0%nat).
    + apply starts_with_false in E. split; [|done]. intros _ j. by rewrite drop_nil.
  - destruct (starts_with sub (c :: s)) eqn:E.
    + apply starts_with_prefix in E. split; [done|]. intros H. by destruct (H 0%nat).
    + apply starts_with_false in E.
      destruct (first_index sub s) as [n|]; simpl.
      * split; [done|]. intros H.
        assert (Some n = None) as Hbad; [|done].
        apply IH. intros j. apply (H (S j)).
      * split; [|done]. intros _ [|j]; [done|]. by apply IH.
Qed.

Lemma first_at_bound (sub s : str) (k : nat) :
  first_at sub s k -> (k <= length s)%nat.
Proof.
  intros [Hk Hj]. destruct (decide (k <= length s)%nat) as [|Hgt]; [done|].
  exfalso. apply (Hj 0%nat); [lia|]. unfold occurs_at in *.
  rewrite drop_ge in Hk by lia. apply prefix_nil_inv in Hk as ->.
  apply prefix_nil.
Qed.

Lemma first_at_unique (sub s : str) (j k : nat) :
  first_at sub s j -> first_at sub s k -> j = k.
Proof.
  intros [Hj Hj'] [Hk Hk'].
  destruct (decide (j < k)%nat); [by destruct (Hk' j)|].
  destruct (decide (k < j)%nat); [by destruct (Hj' k)|]. lia.
Qed.

Lemma find_first_at (sub s : str) (k : nat) :
  first_at sub s k -> find s sub = Z.of_nat k.
Proof.
  intros H. apply first_index_Some in H. unfold find.
  rewrite find_at_first_index, H. lia.
Qed.

Lemma find_absent (sub s : str) :
  (forall j, ~ occurs_at sub s j) -> find s sub = -1.
Proof.
  intros H. apply first_index_None in H. unfold find.
  by rewrite find_at_first_index, H.
Qed.

Lemma find_cases (sub s : str) :
  (find s sub = -1 /\ forall j, ~ occurs_at sub s j)
  \/ (exists k, find s sub = Z.of_nat k /\ first_at sub s k).
Proof.
  unfold find. rewrite find_at_first_index.
  destruct (first_index sub s) as [k|] eqn:E.
  - right. exists k. split; [lia|]. by apply first_index_Some.
  - left. split; [done|]. by apply first_index_None.
Qed.

Lemma contains_occurs (sub s : str) :
  contains sub s = true <-> exists k, occurs_at sub s k.
Proof.
  unfold contains. destruct (find_cases sub s) as [[-> Hno]|(k & -> & Hk & _)].
  - split; [done|]. intros [k Hk]. by destruct (Hno k).
  - split; [eauto|]. intros _. apply Z.leb_le. lia.
Qed.

Lemma contains_false (sub s : str) :
  contains sub s = false <-> forall k, ~ occurs_at sub s k.
Proof.
  rewrite <- not_true_iff_false, contains_occurs. split.
  - intros H k Hk. apply H. eauto.
  - intros H [k Hk]. by apply (H k).
Qed.

(** [find] with a start inside the string searches the rest of it. *)
Lemma find_from_drop (s sub : str) (start : nat) :
  (start <= length s)%nat ->
  find_from s sub (Z.of_nat start)
  = match first_index sub (drop start s) with
    | Some k => Z.of_nat start + Z.of_nat k
    | None => -1
    end.
Proof.
  intros Hle. unfold find_from, clamp, len.
  destruct (Z.ltb_spec (Z.of_nat (length s)) (Z.of_nat start)); [lia|].
  destruct (Z.ltb_spec (Z.of_nat start) 0); [lia|].
  rewrite Z.min_l by lia. rewrite Nat2Z.id. apply find_at_first_index.
Qed.

Lemma find_from_beyond (s sub : str) (start : Z) :
  len s < start -> find_from s sub start = -1.
Proof.
  intros H. unfold find_from. by destruct (Z.ltb_spec (len s) start); [|lia].
Qed.

(** Slices between positions inside the string. *)
Lemma slice_nat (s : str) (a b : nat) :
  (a <= b <= length s)%nat ->
  slice s (Z.of_nat a) (Z.of_nat b) = take (b - a) (drop a s).
Proof.
  intros H. unfold slice, clamp, len.
  destruct (Z.ltb_spec (Z.of_nat a) 0); [lia|].
  destruct (Z.ltb_spec (Z.of_nat b) 0); [lia|].
  rewrite !Z.min_l by lia. rewrite <- Nat2Z.inj_sub by lia.
  by rewrite !Nat2Z.id.
Qed.

Lemma slice_from_nat (s : str) (a : nat) :
  (a <= length s)%nat -> slice_from s (Z.of_nat a) = drop a s.
Proof.
  intros H. unfold slice_from, clamp, len.
  destruct (Z.ltb_spec (Z.of_nat a) 0); [lia|].
  rewrite Z.min_l by lia. by rewrite Nat2Z.id.
Qed.

Lemma slice_middle (pre mid post : str) :
  slice (pre ++ mid ++ post) (len pre) (len pre + len mid) = mid.
Proof.
  unfold len. rewrite <- Nat2Z.inj_add, slice_nat.
  - rewrite drop_app_length.
    replace (length pre + length mid - length pre)%nat with (length mid) by lia.
    by rewrite take_app_length.
  - rewrite !length_app. lia.
Qed.

Lemma slice_from_middle (pre post : str) :
  slice_from (pre ++ post) (len pre) = post.
Proof.
  unfold len. rewrite slice_from_nat; [by rewrite drop_app_length|].
  rewrite length_app. lia.
Qed.

(** Occurrences of a single character. *)
Lemma occurs_at_char (c : char) (s : str) (k : nat) :
  occurs_at [c] s k <-> s !! k = Some c.
Proof.
  unfold occurs_at.
  replace (s !! k) with (drop k s !! 0%nat)
    by (rewrite lookup_drop; f_equal; lia).
  destruct (drop k s) as [|x r]; simpl.
  - split; [|done]. intros [t Ht]. discriminate.
  - split.
    + intros Hp. apply prefix_cons_inv_1 in Hp. by subst.
    + intros [= ->]. apply prefix_cons, prefix_nil.
Qed.

Lemma contains_char (c : char) (s : str) :
  contains [c] s = true <-> c ∈ s.
Proof.
  rewrite contains_occurs, list_elem_of_lookup.
  split; intros [k Hk]; exists k; by apply occurs_at_char.
Qed.

Lemma first_at_char (c : char) (pre post : str) :
  c ∉ pre -> first_at [c] (pre ++ c :: post) (length pre).
Proof.
  intros Hc. split.
  - apply occurs_at_char. by rewrite list_lookup_middle.
  - intros j Hj Hocc. apply occurs_at_char in Hocc.
    rewrite lookup_app_l in Hocc by done.
    apply Hc. by eapply list_elem_of_lookup_2.
Qed.

Lemma first_at_char_inv (c : char) (s : str) (k : nat) :
  first_at [c] s k ->
  exists pre post, s = pre ++ c :: post /\ length pre = k /\ c ∉ pre.
Proof.
  intros [Hk Hj]. apply occurs_at_char in Hk.
  exists (take k s), (drop (S k) s). split_and!.
  - by rewrite take_drop_middle.
  - apply length_take_le. apply lookup_lt_Some in Hk. lia.
  - intros Hin. apply list_elem_of_lookup in Hin as [j Hin].
    pose proof (lookup_lt_Some _ _ _ Hin) as Hlt. rewrite length_take in Hlt.
    rewrite lookup_take_lt in Hin by lia.
    apply (Hj j); [lia|]. by apply occurs_at_char.
Qed.

Lemma find_from_cases (s sub : str) (start : nat) :
  (start <= length s)%nat ->
  (find_from s sub (Z.of_nat start) = -1
   /\ forall j, ~ occurs_at sub (drop start s) j)
  \/ (exists k, find_from s sub (Z.of_nat start) = Z.of_nat start + Z.of_nat k
                /\ first_at sub (drop start s) k).
Proof.
  intros Hle. rewrite find_from_drop by done.
  destruct (first_index sub (drop start s)) as [k|] eqn:E.
  - right. exists k. split; [done|]. by apply first_index_Some.
  - left. split; [done|]. by apply first_index_None.
Qed.

Lemma find_from_first_at (s sub : str) (start k : nat) :
  (start <= length s)%nat -> first_at sub (drop start s) k ->
  find_from s sub (Z.of_nat start) = Z.of_nat start + Z.of_nat k.
Proof.
  intros Hle Hk. rewrite find_from_drop by done.
  apply first_index_Some in Hk. by rewrite Hk.
Qed.

Lemma occurs_at_split (sub s : str) (k : nat) :
  occurs_at sub s k -> (k <= length s)%nat ->
  s = take k s ++ sub ++ drop (k + length sub) s.
Proof.
  intros [post Hpost] Hle.
  assert (drop (k + length sub) s = post) as ->.
  { by rewrite <- drop_drop, Hpost, drop_app_length. }
  rewrite <- Hpost. symmetry. apply take_drop.
Qed.

Lemma occurs_at_middle (sub pre post : str) :
  occurs_at sub (pre ++ sub ++ post) (length pre).
Proof. unfold occurs_at. rewrite drop_app_length. by exists post. Qed.

(** A marker occurrence lets [contains] see the marker and its fence. *)
Lemma occurs_at_prefix (short long s : str) (k : nat) :
  short `prefix_of` long -> occurs_at long s k -> occurs_at short s k.
Proof. unfold occurs_at. intros H1 H2. by etrans. Qed.

(** ** The response parser *)

Lemma split_once_shape (sep s : str) :
  split_once sep s = [s] \/ exists a b, split_once sep s = [a; b].
Proof. unfold split_once. destruct (find s sep <? 0); eauto. Qed.

Lemma process_line_total (d : gmap str str) (line : str) :
  exists d', process_line d line = Ok d'.
Proof.
  unfold process_line.
  destruct (contains [rbracket] line && contains [lbracket] line).
  - destruct (_ >? _); [|eauto]. destruct (_ >? _); eauto.
  - destruct (contains [colon] line); [|eauto].
    destruct (split_once_shape [colon] line) as [->|(a & b & ->)]; simpl; eauto.
Qed.

Lemma process_lines_total (lines : list str) (d : gmap str str) :
  exists d', process_lines d lines = Ok d'.
Proof.
  revert d. induction lines as [|line lines IH]; intros d; simpl; [eauto|].
  destruct (process_line_total d line) as [d' ->]. simpl. apply IH.
Qed.

Lemma parse_participants_total (raw : str) :
  exists d, parse_participants raw = Ok d.
Proof.
  unfold parse_participants. destruct (participants_text raw); [|eauto].
  apply process_lines_total.
Qed.

Lemma parse_response_overall (raw : str) :
  exists d, parse_participants raw = Ok d
            /\ parse_response raw = Ok (default raw (parse_overall raw), d).
Proof.
  unfold parse_response. destruct (parse_participants_total raw) as [d ->].
  by exists d.
Qed.

(** Without a fence neither section is looked for. *)
Lemma parse_overall_no_fence (raw : str) :
  contains fence raw = false -> parse_overall raw = None.
Proof. intros H. unfold parse_overall. by rewrite H, andb_false_r. Qed.

Lemma participants_text_no_fence (raw : str) :
  contains fence raw = false -> participants_text raw = None.
Proof. intros H. unfold participants_text. by rewrite H, andb_false_r. Qed.

Lemma parse_response_no_fence (raw : str) :
  (forall k, ~ occurs_at fence raw k) -> parse_response raw = Ok (raw, ∅).
Proof.
  intros H. apply contains_false in H. unfold parse_response, parse_participants.
  by rewrite parse_overall_no_fence, participants_text_no_fence.
Qed.

(** C2. Parsing returns a pair for every response and raises for none; a
    response without any fence, as the empty one or plain text, comes back
    whole with an empty dictionary. *)
Theorem parse_response_never_raises :
  (forall raw, exists overall by_name,
      parse_response raw = Ok (overall, by_name))
  /\ (forall raw, (forall k, ~ occurs_at fence raw k) ->
        parse_response raw = Ok (raw, ∅))
  /\ parse_response (lit "random text with no markers")
     = Ok (lit "random text with no markers", ∅)
  /\ parse_response [] = Ok ([], ∅)
  /\ parse_response (lit "  " ++ [newline]) = Ok (lit "  " ++ [newline], ∅)
  /\ parse_response (lit "```overall unfinished")
     = Ok (lit "```overall unfinished", ∅)
  /\ parse_response (lit "```participants" ++ [newline] ++ lit "[Al: x ]]["
                       ++ [newline] ++ lit "```")
     = Ok (lit "```participants" ++ [newline] ++ lit "[Al: x ]]["
             ++ [newline] ++ lit "```", ∅).
Proof.
  split_and!.
  - intros raw. destruct (parse_response_overall raw) as (d & _ & ->). eauto.
  - apply parse_response_no_fence.
  - vm_compute. reflexivity.
  - vm_compute. reflexivity.
  - vm_compute. reflexivity.
  - vm_compute. reflexivity.
  - vm_compute. reflexivity.
Qed.

Lemma no_fence_in_plain_text :
  forall k, ~ occurs_at fence (lit "random text with no markers") k.
Proof. apply contains_false. vm_compute. reflexivity. Qed.

Lemma parse_response_never_raises_witness :
  (forall k, ~ occurs_at fence (lit "random text with no markers") k)
  /\ parse_response (lit "random text with no markers")
     = Ok (lit "random text with no markers", ∅).
Proof.
  split; [exact no_fence_in_plain_text|].
  apply (proj1 (proj2 parse_response_never_raises)).
  exact no_fence_in_plain_text.
Defined.

Lemma overall_marker_fence : fence `prefix_of` overall_marker.
Proof. by exists (lit "overall"). Qed.

Lemma parse_overall_section (raw pre content post : str) :
  overall_section raw pre content post ->
  parse_overall raw = Some (strip content).
Proof.
  intros (Hraw & Hmarker & Hfence & Hcontent). unfold parse_overall.
  assert (contains overall_marker raw = true) as ->.
  { apply contains_occurs. exists (length pre). apply Hmarker. }
  assert (contains fence raw = true) as ->.
  { apply contains_occurs. exists (length pre).
    eapply occurs_at_prefix; [apply overall_marker_fence|apply Hmarker]. }
  cbn [andb]. rewrite (find_first_at _ _ _ Hmarker).
  assert (raw = (pre ++ overall_marker) ++ content ++ fence ++ post) as Hraw'
    by by rewrite <- app_assoc.
  assert (Z.of_nat (length pre) + 10
          = Z.of_nat (length (pre ++ overall_marker))) as ->.
  { rewrite length_app. change (length overall_marker) with 10%nat. lia. }
  rewrite (find_from_first_at raw fence _ (length content)).
  - destruct (Z.gtb_spec
                (Z.of_nat (length (pre ++ overall_marker))
                 + Z.of_nat (length content))
                (Z.of_nat (length (pre ++ overall_marker)))) as [_|Hle].
    + do 2 f_equal. rewrite Hraw'. apply slice_middle.
    + destruct content; [done|]. simpl in Hle. lia.
  - rewrite Hraw', !length_app. lia.
  - rewrite Hraw', drop_app_length. exact Hfence.
Qed.

Lemma parse_overall_inv (raw x : str) :
  parse_overall raw = Some x ->
  exists pre content post,
    overall_section raw pre content post /\ x = strip content.
Proof.
  intros Hparse. pose proof Hparse as Hx. unfold parse_overall in Hparse.
  destruct (contains overall_marker raw) eqn:Hc; [|done].
  destruct (contains fence raw); [|done]. cbn [andb] in Hparse.
  destruct (find_cases overall_marker raw) as [[_ Hno]|(k & Hfind & Hk)].
  { apply contains_occurs in Hc as [j Hj]. by destruct (Hno j). }
  rewrite Hfind in Hparse.
  pose proof (first_at_bound _ _ _ Hk) as Hkle.
  pose proof (occurs_at_split _ _ _ (proj1 Hk) Hkle) as Hsplit.
  change (length overall_marker) with 10%nat in Hsplit.
  assert (k + 10 <= length raw)%nat as Hstart.
  { rewrite Hsplit, !length_app, length_take. simpl. lia. }
  replace (Z.of_nat k + 10) with (Z.of_nat (k + 10)) in Hparse by lia.
  destruct (find_from_cases raw fence (k + 10) Hstart)
    as [[Hnone _]|(n & Hend & Hn)].
  { rewrite Hnone in Hparse. by destruct (Z.gtb_spec (-1) (Z.of_nat (k + 10))); [lia|]. }
  rewrite Hend in Hparse.
  destruct (Z.gtb_spec (Z.of_nat (k + 10) + Z.of_nat n) (Z.of_nat (k + 10)))
    as [Hgt|]; [|done].
  set (rest := drop (k + 10) raw) in *.
  pose proof (first_at_bound _ _ _ Hn) as Hnle.
  pose proof (occurs_at_split _ _ _ (proj1 Hn) Hnle) as Hrest.
  assert (overall_section raw (take k raw) (take n rest)
            (drop (n + length fence) rest)) as Hsection.
  { unfold overall_section. rewrite <- Hrest. split_and!.
    - exact Hsplit.
    - by rewrite length_take_le.
    - by rewrite length_take_le.
    - intros Hnil. apply (f_equal length) in Hnil.
      rewrite length_take_le in Hnil by done. simpl in Hnil. lia. }
  eexists _, _, _. split; [exact Hsection|].
  apply parse_overall_section in Hsection. congruence.
Qed.

(** C3. When the response holds an overall section (the first overall marker,
    a content that is not empty, the first fence after the marker) the overall
    summary is that content, stripped; when it holds none, the overall summary
    is the whole response. *)
Theorem overall_is_section_or_raw (raw : str) :
  (forall pre content post,
      overall_section raw pre content post ->
      exists by_name, parse_response raw = Ok (strip content, by_name))
  /\ ((forall pre content post, ~ overall_section raw pre content post) ->
      exists by_name, parse_response raw = Ok (raw, by_name))
  /\ (forall content, exists a b,
        content = a ++ strip content ++ b
        /\ Forall (fun c => is_space c = true) a
        /\ Forall (fun c => is_space c = true) b
        /\ trimmed is_space (strip content)).
Proof.
  split_and!.
  - intros pre content post Hsection.
    destruct (parse_response_overall raw) as (d & _ & ->).
    rewrite (parse_overall_section _ _ _ _ Hsection). by exists d.
  - intros Hnone. destruct (parse_response_overall raw) as (d & _ & ->).
    destruct (parse_overall raw) as [x|] eqn:E; [|by exists d].
    apply parse_overall_inv in E as (pre & content & post & Hsection & _).
    by destruct (Hnone pre content post).
  - intros content. apply strip_by_spec.
Qed.

Lemma first_at_by_index (sub s : str) (k : nat) :
  first_index sub s = Some k -> first_at sub s k.
Proof. apply first_index_Some. Qed.

Lemma overall_is_section_or_raw_witness :
  let content := [newline] ++ lit "SUMMARY" ++ [newline] in
  let raw := lit "```overall" ++ content ++ lit "```" in
  overall_section raw [] content []
  /\ exists by_name, parse_response raw = Ok (lit "SUMMARY", by_name).
Proof.
  intros content raw.
  assert (overall_section raw [] content []) as Hsection.
  { split_and!; [reflexivity| | |discriminate];
      apply first_at_by_index; vm_compute; reflexivity. }
  split; [exact Hsection|].
  exact (proj1 (overall_is_section_or_raw raw) [] content [] Hsection).
Defined.

(** The well-formed block of the specification. *)
Example overall_block :
  parse_response (lit "```overall" ++ [newline] ++ lit "SUMMARY" ++ [newline]
                    ++ lit "```")
  = Ok (lit "SUMMARY", ∅).
Proof. vm_compute. reflexivity. Qed.

(** A fence right after the marker is no section: the response comes back
    whole. *)
Example overall_block_empty :
  parse_response (lit "```overall```") = Ok (lit "```overall```", ∅).
Proof. vm_compute. reflexivity. Qed.

(** ** Lines of the participants block *)

Lemma contains_char_false (c : char) (s : str) :
  contains [c] s = false <-> c ∉ s.
Proof. rewrite <- contains_char. by destruct (contains [c] s). Qed.

Lemma find_char (c : char) (pre post : str) :
  c ∉ pre -> find (pre ++ [c] ++ post) [c] = len pre.
Proof. intros H. by apply find_first_at, (first_at_char c pre post). Qed.

Lemma find_from_char (c : char) (pre mid post : str) :
  c ∉ mid ->
  find_from (pre ++ mid ++ [c] ++ post) [c] (len pre) = len pre + len mid.
Proof.
  intros H. unfold len.
  rewrite (find_from_first_at _ _ _ (length mid)); [done| |].
  - rewrite length_app. lia.
  - rewrite drop_app_length. by apply (first_at_char c mid post).
Qed.

Lemma find_from_char_absent (c : char) (pre tail : str) :
  c ∉ tail -> find_from (pre ++ tail) [c] (len pre) = -1.
Proof.
  intros H. unfold len.
  destruct (find_from_cases (pre ++ tail) [c] (length pre))
    as [[-> _]|(k & _ & Hk & _)]; [rewrite length_app; lia|done|].
  rewrite drop_app_length in Hk. apply occurs_at_char in Hk.
  destruct H. by eapply list_elem_of_lookup_2.
Qed.

Lemma bracket_line_records (pre name mid rest : str) :
  lbracket ∉ pre -> rbracket ∉ pre -> rbracket ∉ name -> name <> [] ->
  colon ∉ mid ->
  records (pre ++ [lbracket] ++ name ++ [rbracket] ++ mid ++ [colon] ++ rest)
          name (strip rest).
Proof.
  intros Hlb Hrb Hname Hne Hcolon d. unfold process_line.
  set (line := pre ++ _).
  assert (contains [rbracket] line = true) as ->.
  { apply contains_char. subst line.
    rewrite !elem_of_app, !list_elem_of_singleton. naive_solver. }
  assert (contains [lbracket] line = true) as ->.
  { apply contains_char. subst line.
    rewrite !elem_of_app, !list_elem_of_singleton. naive_solver. }
  cbn [andb].
  assert (find line [lbracket] = len pre) as -> by by apply find_char.
  assert (find line [rbracket] = len pre + 1 + len name) as Hend.
  { subst line. rewrite (app_assoc pre), (app_assoc _ name).
    rewrite find_char; [unfold len; rewrite !length_app; simpl; lia|].
    rewrite !not_elem_of_app, list_elem_of_singleton. by split_and!. }
  rewrite Hend.
  destruct (Z.gtb_spec (len pre + 1 + len name) (len pre + 1)) as [_|Hle];
    [|destruct name; [done|unfold len in Hle; simpl in Hle; lia]].
  assert (slice line (len pre + 1) (len pre + 1 + len name) = name) as ->.
  { subst line. rewrite (app_assoc pre).
    replace (len pre + 1) with (len (pre ++ [lbracket]))
      by (unfold len; rewrite length_app; simpl; lia).
    apply slice_middle. }
  assert (find_from line [colon] (len pre + 1 + len name)
          = len pre + 1 + len name + (1 + len mid)) as ->.
  { subst line.
    replace (len pre + 1 + len name) with (len (pre ++ [lbracket] ++ name))
      by (unfold len; rewrite !length_app; simpl; lia).
    replace (1 + len mid) with (len ([rbracket] ++ mid))
      by (unfold len; rewrite !length_app; simpl; lia).
    rewrite <- (find_from_char colon _ ([rbracket] ++ mid) rest).
    - by rewrite <- !app_assoc.
    - rewrite not_elem_of_app, list_elem_of_singleton. by split. }
  destruct (Z.gtb_spec (len pre + 1 + len name + (1 + len mid) + 1) 0)
    as [_|Hle]; [|unfold len in Hle; lia].
  do 3 f_equal. subst line.
  replace (len pre + 1 + len name + (1 + len mid) + 1)
    with (len (pre ++ [lbracket] ++ name ++ [rbracket] ++ mid ++ [colon]))
    by (unfold len; rewrite !length_app; simpl; lia).
  rewrite <- (slice_from_middle
                (pre ++ [lbracket] ++ name ++ [rbracket] ++ mid ++ [colon])
                rest) at 2.
  by rewrite <- !app_assoc.
Qed.

Lemma bracket_line_without_colon (pre name tail : str) :
  lbracket ∉ pre -> rbracket ∉ pre -> rbracket ∉ name -> name <> [] ->
  colon ∉ tail ->
  skips (pre ++ [lbracket] ++ name ++ [rbracket] ++ tail).
Proof.
  intros Hlb Hrb Hname Hne Hcolon d. unfold process_line.
  set (line := pre ++ _).
  assert (contains [rbracket] line = true) as ->.
  { apply contains_char. subst line.
    rewrite !elem_of_app, !list_elem_of_singleton. naive_solver. }
  assert (contains [lbracket] line = true) as ->.
  { apply contains_char. subst line.
    rewrite !elem_of_app, !list_elem_of_singleton. naive_solver. }
  cbn [andb].
  assert (find line [lbracket] = len pre) as -> by by apply find_char.
  assert (find line [rbracket] = len pre + 1 + len name) as ->.
  { subst line. rewrite (app_assoc pre), (app_assoc _ name).
    rewrite find_char; [unfold len; rewrite !length_app; simpl; lia|].
    rewrite !not_elem_of_app, list_elem_of_singleton. by split_and!. }
  destruct (Z.gtb_spec (len pre + 1 + len name) (len pre + 1)); [|done].
  assert (find_from line [colon] (len pre + 1 + len name) = -1) as ->; [|done].
  subst line.
  replace (len pre + 1 + len name) with (len (pre ++ [lbracket] ++ name))
    by (unfold len; rewrite !length_app; simpl; lia).
  rewrite <- (find_from_char_absent colon (pre ++ [lbracket] ++ name)
                ([rbracket] ++ tail)).
  - by rewrite <- !app_assoc.
  - rewrite not_elem_of_app, list_elem_of_singleton. by split.
Qed.

(** Both brackets, but the first closing one does not come after a name. *)
Lemma bracket_line_malformed (pre post : str) :
  lbracket ∈ pre ++ [rbracket] ++ post ->
  rbracket ∉ pre ->
  lbracket ∉ pre \/ (exists pre', pre = pre' ++ [lbracket] /\ lbracket ∉ pre') ->
  skips (pre ++ [rbracket] ++ post).
Proof.
  intros Hin Hrb Hshape d. unfold process_line.
  assert (contains [rbracket] (pre ++ [rbracket] ++ post) = true) as ->.
  { apply contains_char. rewrite !elem_of_app. right. left.
    by apply list_elem_of_singleton. }
  assert (contains [lbracket] (pre ++ [rbracket] ++ post) = true) as ->
    by by apply contains_char.
  cbn [andb]. rewrite (find_char rbracket pre post Hrb).
  assert (len pre <= find (pre ++ [rbracket] ++ post) [lbracket] + 1) as Hle.
  { destruct Hshape as [Hlb|(pre' & -> & Hlb)].
    - destruct (find_cases [lbracket] (pre ++ [rbracket] ++ post))
        as [[_ Hno]|(k & -> & Hk & _)].
      { apply contains_char in Hin. apply contains_occurs in Hin as [j Hj].
        by destruct (Hno j). }
      apply occurs_at_char in Hk. unfold len.
      destruct (decide (k < length pre)%nat); [|lia].
      rewrite lookup_app_l in Hk by done.
      destruct Hlb. by eapply list_elem_of_lookup_2.
    - rewrite <- (app_assoc pre'). rewrite find_char by done.
      unfold len. rewrite length_app. simpl. lia. }
  by destruct (Z.gtb_spec (len pre)
                 (find (pre ++ [rbracket] ++ post) [lbracket] + 1)); [lia|].
Qed.

Lemma split_once_char (c : char) (name rest : str) :
  c ∉ name -> split_once [c] (name ++ [c] ++ rest) = [name; rest].
Proof.
  intros H. unfold split_once. rewrite find_char by done.
  destruct (Z.ltb_spec (len name) 0); [unfold len in *; lia|].
  f_equal; [|f_equal].
  - change 0 with (len (@nil char)).
    rewrite <- (slice_middle [] name ([c] ++ rest)) at 3. simpl.
    by replace (0 + len name) with (len name) by lia.
  - replace (len name + len [c]) with (len (name ++ [c]))
      by (unfold len; rewrite length_app; lia).
    rewrite <- (slice_from_middle (name ++ [c]) rest) at 2.
    by rewrite <- app_assoc.
Qed.

Lemma colon_line_records (name rest : str) :
  ~ (lbracket ∈ name ++ [colon] ++ rest /\ rbracket ∈ name ++ [colon] ++ rest) ->
  colon ∉ name ->
  records (name ++ [colon] ++ rest) (strip name) (strip rest).
Proof.
  intros Hbr Hcolon d. unfold process_line.
  assert (contains [rbracket] (name ++ [colon] ++ rest)
          && contains [lbracket] (name ++ [colon] ++ rest) = false) as ->.
  { apply andb_false_iff. rewrite !contains_char_false.
    destruct (decide (rbracket ∈ name ++ [colon] ++ rest)); [|by left].
    right. intros Hlb. by apply Hbr. }
  assert (contains [colon] (name ++ [colon] ++ rest) = true) as ->.
  { apply contains_char.
    rewrite !elem_of_app, !list_elem_of_singleton. naive_solver. }
  by rewrite split_once_char.
Qed.

Lemma plain_line_skips (line : str) :
  ~ (lbracket ∈ line /\ rbracket ∈ line) -> colon ∉ line -> skips line.
Proof.
  intros Hbr Hcolon d. unfold process_line.
  assert (contains [rbracket] line && contains [lbracket] line = false) as ->.
  { apply andb_false_iff. rewrite !contains_char_false.
    destruct (decide (rbracket ∈ line)); [|by left].
    right. intros Hlb. by apply Hbr. }
  apply contains_char_false in Hcolon. by rewrite Hcolon.
Qed.

(** A line records one entry or none, whatever the dictionary. *)
Lemma process_line_cases (line : str) :
  skips line \/ exists name summary, records line name summary.
Proof.
  unfold skips, records, process_line.
  destruct (contains [rbracket] line && contains [lbracket] line).
  - destruct (_ >? _); [|by left]. destruct (_ >? _); [|by left].
    right. eauto.
  - destruct (contains [colon] line); [|by left].
    destruct (split_once_shape [colon] line) as [->|(a & b & ->)];
      [by left|right; simpl; eauto].
Qed.

Lemma process_lines_app (l1 l2 : list str) (d : gmap str str) :
  process_lines d (l1 ++ l2) = process_lines d l1 ≫= fun d1 => process_lines d1 l2.
Proof.
  revert d. induction l1 as [|line l1 IH]; intros d; simpl; [done|].
  destruct (process_line d line) as [d1|e]; simpl; [apply IH|done].
Qed.

Lemma process_lines_keep (later : list str) (name summary : str)
    (d d' : gmap str str) :
  (forall line other, line ∈ later -> ~ records line name other) ->
  d !! name = Some summary ->
  process_lines d later = Ok d' ->
  d' !! name = Some summary.
Proof.
  revert d. induction later as [|line later IH]; intros d Hlater Hd; simpl.
  - by intros [= <-].
  - destruct (process_line_cases line) as [Hskip|(n & v & Hrec)].
    + rewrite Hskip. simpl. apply IH; [|done].
      intros l o Hl. apply Hlater. by right.
    + rewrite Hrec. simpl. apply IH.
      * intros l o Hl. apply Hlater. by right.
      * rewrite lookup_insert_ne; [done|]. intros ->.
        apply (Hlater line v); [by left|done].
Qed.

(** The last line that names a participant decides the summary. *)
Lemma last_line_wins (earlier later : list str) (line name summary : str)
    (d d' : gmap str str) :
  records line name summary ->
  (forall other_line other, other_line ∈ later ->
                            ~ records other_line name other) ->
  process_lines d (earlier ++ line :: later) = Ok d' ->
  d' !! name = Some summary.
Proof.
  intros Hrec Hlater. rewrite process_lines_app.
  destruct (process_lines_total earlier d) as [d1 ->]. simpl.
  rewrite Hrec. simpl. apply process_lines_keep; [done|].
  apply lookup_insert_eq.
Qed.

(** C5, as the code has it. A line with both brackets gives the text between
    its first opening and its first closing bracket as the name, provided the
    name is not empty, and the stripped text after the first colon behind it
    as the summary; without such a colon, or when the first closing bracket
    does not come after a name, the line is ignored, colon or not.  A line
    that lacks a bracket and has a colon is split at its first colon into a
    stripped name and a stripped summary.  Any other line is ignored.  The
    last line that names a participant decides the summary. *)
Theorem participant_lines_last_wins :
  (forall pre name mid rest,
      lbracket ∉ pre -> rbracket ∉ pre -> rbracket ∉ name -> name <> [] ->
      colon ∉ mid ->
      records (pre ++ [lbracket] ++ name ++ [rbracket] ++ mid ++ [colon] ++ rest)
              name (strip rest))
  /\ (forall pre name tail,
        lbracket ∉ pre -> rbracket ∉ pre -> rbracket ∉ name -> name <> [] ->
        colon ∉ tail ->
        skips (pre ++ [lbracket] ++ name ++ [rbracket] ++ tail))
  /\ (forall pre post,
        lbracket ∈ pre ++ [rbracket] ++ post ->
        rbracket ∉ pre ->
        lbracket ∉ pre
        \/ (exists pre', pre = pre' ++ [lbracket] /\ lbracket ∉ pre') ->
        skips (pre ++ [rbracket] ++ post))
  /\ (forall name rest,
        ~ (lbracket ∈ name ++ [colon] ++ rest
           /\ rbracket ∈ name ++ [colon] ++ rest) ->
        colon ∉ name ->
        records (name ++ [colon] ++ rest) (strip name) (strip rest))
  /\ (forall line,
        ~ (lbracket ∈ line /\ rbracket ∈ line) -> colon ∉ line -> skips line)
  /\ (forall earlier later line name summary d,
        records line name summary ->
        (forall other_line other, other_line ∈ later ->
                                  ~ records other_line name other) ->
        exists d', process_lines d (earlier ++ line :: later) = Ok d'
                   /\ d' !! name = Some summary)
  /\ (forall raw block,
        participants_text raw = Some block ->
        parse_participants raw = process_lines ∅ (split_char newline block)).
Proof.
  split_and!.
  - apply bracket_line_records.
  - apply bracket_line_without_colon.
  - apply bracket_line_malformed.
  - apply colon_line_records.
  - apply plain_line_skips.
  - intros earlier later line name summary d Hrec Hlater.
    destruct (process_lines_total (earlier ++ line :: later) d) as [d' Hd'].
    exists d'. split; [done|]. by eapply last_line_wins.
  - intros raw block Hblock. unfold parse_participants. by rewrite Hblock.
Qed.

Lemma participant_lines_last_wins_witness :
  records (lit "[Alice]: went shopping") (lit "Alice") (lit "went shopping")
  /\ records (lit "Bob: played chess") (lit "Bob") (lit "played chess").
Proof.
  destruct participant_lines_last_wins as (Hbracket & _ & _ & Hcolon & _).
  split.
  - apply (Hbracket [] (lit "Alice") [] (lit " went shopping"));
      apply (bool_decide_unpack _); vm_compute; exact I.
  - apply (Hcolon (lit "Bob") (lit " played chess"));
      apply (bool_decide_unpack _); vm_compute; exact I.
Defined.

(** The two lines of the specification, and a participant named twice. *)
Example participants_block :
  parse_response
    (lit "```participants" ++ [newline] ++ lit "[Alice]: went shopping"
       ++ [newline] ++ lit "Bob: played chess" ++ [newline] ++ lit "```")
  = Ok (lit "```participants" ++ [newline] ++ lit "[Alice]: went shopping"
          ++ [newline] ++ lit "Bob: played chess" ++ [newline] ++ lit "```",
        <[lit "Bob" := lit "played chess"]>
          (<[lit "Alice" := lit "went shopping"]> ∅)).
Proof. vm_compute. reflexivity. Qed.

(** The block is cut one character before the end of its marker, whose last
    letter opens the first line; on a line of its own it is ignored, on the
    line of an entry it becomes part of the name. *)
Example participants_marker_offset :
  participants_text (lit "```participants" ++ [newline] ++ lit "Bob: chess"
                       ++ lit "```")
  = Some (lit "s" ++ [newline] ++ lit "Bob: chess")
  /\ parse_participants (lit "```participants Bob: chess```")
     = Ok (<[lit "s Bob" := lit "chess"]> ∅).
Proof. split; vm_compute; reflexivity. Qed.

Example participant_named_twice :
  process_lines ∅ [lit "[Alice]: first"; lit "Bob: x"; lit "Alice: second"]
  = Ok (<[lit "Bob" := lit "x"]> (<[lit "Alice" := lit "second"]> ∅)).
Proof. vm_compute. reflexivity. Qed.

(** C5 as the specification words it fails: in this line no opening bracket
    comes before a closing one and there is a colon, so the second rule would
    split it at the colon, yet the line is ignored. *)
Lemma bracket_order_counterexample :
  let line := lit "Bob] said: hi [there" in
  (forall i j, (i < j)%nat -> line !! i = Some lbracket ->
               line !! j = Some rbracket -> False)
  /\ colon ∈ line
  /\ process_line ∅ line = Ok ∅
  /\ process_line ∅ line
     <> Ok (<[strip (lit "Bob] said") := strip (lit " hi [there")]> ∅).
Proof.
  intros line. split_and!.
  - intros i j Hij Hi Hj.
    assert (j = 3%nat) as ->.
    { apply lookup_lt_Some in Hj as Hlt. vm_compute in Hlt.
      do 20 (destruct j as [|j]; [try done; vm_compute in Hj; discriminate|]).
      lia. }
    do 3 (destruct i as [|i]; [vm_compute in Hi; discriminate|]). lia.
  - apply (bool_decide_unpack _). vm_compute. exact I.
  - vm_compute. reflexivity.
  - vm_compute. discriminate.
Qed.

(** ** Strings: white space *)

Lemma strip_by_nil (p : char -> bool) (s : str) :
  strip_by p s = [] <-> Forall (fun c => p c = true) s.
Proof.
  split.
  - intros Hnil. destruct (strip_by_spec p s) as (a & b & Hs & Ha & Hb & _).
    rewrite Hs, Hnil. by apply Forall_app.
  - intros Hs. unfold strip_by.
    assert (lstrip_by p s = []) as ->; [|done].
    rewrite <- (app_nil_r s). by rewrite lstrip_by_app.
Qed.

Lemma split_ws_aux_word (s : str) (w : str) : split_ws_aux s (Some w) <> [].
Proof.
  revert w. induction s as [|c s IH]; intros w; simpl; [done|].
  destruct (is_space c); [done|apply IH].
Qed.

Lemma split_ws_nil (s : str) :
  split_ws s = [] <-> Forall (fun c => is_space c = true) s.
Proof.
  unfold split_ws. induction s as [|c s IH]; simpl; [by split|].
  destruct (is_space c) eqn:Hc.
  - rewrite IH. split; [by constructor|]. by intros [_ ?]%Forall_cons_1.
  - split; [by intros ?%split_ws_aux_word|].
    intros [Hbad _]%Forall_cons_1. congruence.
Qed.

Lemma split_ws_aux_run (word w tail : str) :
  Forall (fun c => is_space c = false) word ->
  tail = [] \/ (exists c rest, tail = c :: rest /\ is_space c = true) ->
  split_ws_aux (word ++ tail) (Some w)
  = (reverse w ++ word) :: split_ws_aux tail None.
Proof.
  intros Hword Htail. revert w.
  induction Hword as [|x word Hx _ IH]; intros w; simpl.
  - rewrite app_nil_r. destruct Htail as [->|(c & rest & -> & Hc)]; simpl;
      [done|by rewrite Hc].
  - rewrite Hx, IH. simpl. by rewrite reverse_cons, <- app_assoc.
Qed.

(** The first token of [split()]: leading white space, then a run of other
    characters up to the next white space or the end. *)
Lemma split_ws_first (ws word tail : str) :
  Forall (fun c => is_space c = true) ws ->
  word <> [] -> Forall (fun c => is_space c = false) word ->
  tail = [] \/ (exists c rest, tail = c :: rest /\ is_space c = true) ->
  split_ws (ws ++ word ++ tail) = word :: split_ws tail.
Proof.
  intros Hws Hne Hword Htail. unfold split_ws.
  induction Hws as [|c ws Hc _ IH]; simpl.
  - destruct Hword as [|x word Hx Hword]; [done|]. simpl. rewrite Hx.
    by rewrite split_ws_aux_run.
  - by rewrite Hc.
Qed.

Lemma strip_word (word : str) :
  Forall (fun c => is_space c = false) word -> strip word = word.
Proof.
  intros Hword. apply strip_by_trimmed. split; intros c Hc.
  - destruct word as [|x word]; [done|]. injection Hc as <-.
    by apply Forall_cons_1 in Hword as [? _].
  - apply last_Some_elem_of in Hc.
    by eapply (proj1 (Forall_forall _ _) Hword).
Qed.

(** ** Trader names *)

Lemma extract_trader_name_total (message_text : str) :
  exists found, extract_trader_name message_text = Ok found.
Proof.
  unfold extract_trader_name.
  destruct (_ || _); [|eauto].
  destruct (_ && _).
  { destruct (_ && _); eauto. }
  destruct (contains from_marker message_text); [|eauto].
  destruct (split_once_shape from_marker message_text)
    as [->|(a & b & ->)]; simpl; [eauto|].
  destruct (bool_decide (strip b = [])) eqn:Hb; [eauto|].
  apply bool_decide_eq_false in Hb.
  destruct (split_ws b) as [|word words] eqn:Hsplit; simpl; [|eauto].
  exfalso. apply Hb. apply strip_by_nil. by apply split_ws_nil.
Qed.

Lemma contains_from_marker_money (message_text : str) :
  contains from_marker message_text = true ->
  contains [money_bag] message_text = true.
Proof.
  rewrite !contains_occurs. intros [k Hk]. exists (k + 6)%nat.
  unfold occurs_at in *. destruct Hk as [post Hpost].
  rewrite <- drop_drop, Hpost. by exists post.
Qed.

(** The first convention: the name between the money bag and the bracket. *)
Lemma name_between_markers (pre name post : str) :
  money_bag ∉ pre -> lenticular ∉ pre -> lenticular ∉ name -> name <> [] ->
  extract_trader_name (pre ++ [money_bag] ++ name ++ [lenticular] ++ post)
  = Ok (if bool_decide (strip name = []) then None else Some (strip name)).
Proof.
  intros Hbag Hlen Hname Hne. unfold extract_trader_name.
  set (message_text := pre ++ _).
  assert (contains [money_bag] message_text = true) as ->.
  { apply contains_char. subst message_text.
    rewrite !elem_of_app, !list_elem_of_singleton. naive_solver. }
  assert (contains [lenticular] message_text = true) as ->.
  { apply contains_char. subst message_text.
    rewrite !elem_of_app, !list_elem_of_singleton. naive_solver. }
  rewrite orb_true_r. cbn [andb].
  assert (find message_text [money_bag] = len pre) as -> by by apply find_char.
  assert (find message_text [lenticular] = len pre + 1 + len name) as ->.
  { subst message_text. rewrite (app_assoc pre), (app_assoc _ name).
    rewrite find_char; [unfold len; rewrite !length_app; simpl; lia|].
    rewrite !not_elem_of_app, list_elem_of_singleton. by split_and!. }
  destruct (Z.gtb_spec (len pre + 1) 0) as [_|Hle]; [|unfold len in Hle; lia].
  destruct (Z.gtb_spec (len pre + 1 + len name) (len pre + 1)) as [_|Hle];
    [|destruct name; [done|unfold len in Hle; simpl in Hle; lia]].
  cbn [andb].
  assert (slice message_text (len pre + 1) (len pre + 1 + len name) = name)
    as ->; [|done].
  subst message_text. rewrite (app_assoc pre).
  replace (len pre + 1) with (len (pre ++ [money_bag]))
    by (unfold len; rewrite length_app; simpl; lia).
  apply slice_middle.
Qed.

Lemma split_once_first_at (sep pre rest : str) :
  first_at sep (pre ++ sep ++ rest) (length pre) ->
  split_once sep (pre ++ sep ++ rest) = [pre; rest].
Proof.
  intros H. unfold split_once. rewrite (find_first_at _ _ _ H).
  destruct (Z.ltb_spec (Z.of_nat (length pre)) 0); [lia|].
  f_equal; [|f_equal].
  - change 0 with (len (@nil char)).
    rewrite <- (slice_middle [] pre (sep ++ rest)) at 3. simpl.
    by replace (0 + len pre) with (Z.of_nat (length pre)) by (unfold len; lia).
  - replace (Z.of_nat (length pre) + len sep) with (len (pre ++ sep))
      by (unfold len; rewrite length_app; lia).
    rewrite <- (slice_from_middle (pre ++ sep) rest) at 2.
    by rewrite <- app_assoc.
Qed.

Lemma bind_Ok {A B} (a : A) (k : A -> result B) : Ok a ≫= k = k a.
Proof. reflexivity. Qed.

Lemma index_first {A} (x : A) (l : list A) : index (x :: l) 0 = Ok x.
Proof. reflexivity. Qed.

Lemma index_second {A} (x y : A) (l : list A) : index (x :: y :: l) 1 = Ok y.
Proof. reflexivity. Qed.

(** The second convention: the first word after the prefix, when the message
    has no bracket. *)
Lemma name_after_prefix (pre ws word tail : str) :
  let message_text := pre ++ from_marker ++ ws ++ word ++ tail in
  lenticular ∉ message_text ->
  first_at from_marker message_text (length pre) ->
  Forall (fun c => is_space c = true) ws ->
  word <> [] -> Forall (fun c => is_space c = false) word ->
  tail = [] \/ (exists c rest, tail = c :: rest /\ is_space c = true) ->
  extract_trader_name message_text = Ok (Some word).
Proof.
  intros message_text Hlen Hfirst Hws Hne Hword Htail.
  unfold extract_trader_name.
  assert (contains from_marker message_text = true) as ->.
  { apply contains_occurs. exists (length pre). apply Hfirst. }
  apply contains_char_false in Hlen. rewrite Hlen, andb_false_r. cbn [orb].
  subst message_text. rewrite (split_once_first_at _ _ _ Hfirst).
  change (len [pre; ws ++ word ++ tail] >? 1) with true. cbv iota.
  rewrite !index_second, bind_Ok.
  assert (split_ws (ws ++ word ++ tail) = word :: split_ws tail) as Hsplit
    by by apply split_ws_first.
  destruct (bool_decide (strip (ws ++ word ++ tail) = [])) eqn:Hb.
  { apply bool_decide_eq_true in Hb. apply strip_by_nil, split_ws_nil in Hb.
    by rewrite Hsplit in Hb. }
  rewrite bind_Ok, Hsplit, index_first, bind_Ok, (strip_word word Hword).
  by rewrite bool_decide_eq_false_2.
Qed.

Lemma elem_of_collect_names (body : str -> result (option str))
    (messages : list Message) (name : str) :
  name ∈ collect_names body messages <->
  exists msg, msg ∈ messages /\ body (text msg) = Ok (Some name).
Proof.
  unfold collect_names.
  assert (forall acc : gset str,
             name ∈ foldl (fun names msg =>
                             match body (text msg) with
                             | Ok (Some n) => names ∪ {[n]}
                             | _ => names
                             end) acc messages
             <-> name ∈ acc
                 \/ exists msg, msg ∈ messages
                                /\ body (text msg) = Ok (Some name)) as Hfold.
  { induction messages as [|m messages IH]; intros acc; simpl.
    - split; [by left|]. intros [Hacc | (msg & Hin & _)]; [done|].
      by apply elem_of_nil in Hin.
    - rewrite IH. setoid_rewrite elem_of_cons.
      destruct (body (text m)) as [[n|]|e] eqn:Hm.
      + rewrite elem_of_union, elem_of_singleton. split.
        * intros [[Hacc | ->] | (msg & Hin & Hmsg)]; eauto 6.
        * intros [Hacc | (msg & [-> | Hin] & Hmsg)]; eauto 6.
          rewrite Hm in Hmsg. injection Hmsg as <-. auto.
      + split.
        * intros [Hacc | (msg & Hin & Hmsg)]; eauto 6.
        * intros [Hacc | (msg & [-> | Hin] & Hmsg)]; eauto 6. congruence.
      + split.
        * intros [Hacc | (msg & Hin & Hmsg)]; eauto 6.
        * intros [Hacc | (msg & [-> | Hin] & Hmsg)]; eauto 6. congruence. }
  rewrite (Hfold ∅). split; [|by right].
  intros [H|H]; [by apply not_elem_of_empty in H|done].
Qed.

Lemma strictly_sorted (l : list str) :
  StronglySorted (key_le (fun name => name)) l -> NoDup l ->
  StronglySorted (fun a b => ltb a b = true) l.
Proof.
  induction 1 as [|a l Hl IH Ha]; intros Hnd; [constructor|].
  apply NoDup_cons in Hnd as [Hnotin Hnd]. constructor; [by apply IH|].
  apply Forall_forall. intros b Hb.
  pose proof (proj1 (Forall_forall _ _) Ha b Hb) as Hle.
  unfold key_le, leb in Hle. apply negb_true_iff in Hle.
  destruct (ltb a b) eqn:Hab; [done|].
  destruct Hnotin. by rewrite (ltb_total a b Hab Hle).
Qed.

Lemma trader_names_sorted (messages : list Message) :
  StronglySorted (fun a b => ltb a b = true) (trader_names messages).
Proof.
  unfold trader_names. apply strictly_sorted; [apply sorted_by_sorted|].
  rewrite sorted_by_perm. apply NoDup_elements.
Qed.

Lemma elem_of_trader_names (messages : list Message) (name : str) :
  name ∈ trader_names messages <->
  exists msg, msg ∈ messages /\ extract_trader_name (text msg) = Ok (Some name).
Proof.
  unfold trader_names. rewrite sorted_by_perm, elem_of_elements.
  apply elem_of_collect_names.
Qed.

(** A message whose extraction raises changes nothing. *)
Lemma collect_names_skips (body : str -> result (option str))
    (earlier later : list Message) (msg : Message) (e : exn) :
  body (text msg) = Raise e ->
  collect_names body (earlier ++ msg :: later)
  = collect_names body (earlier ++ later).
Proof.
  intros Hraise. unfold collect_names. rewrite !foldl_app. simpl.
  by rewrite Hraise.
Qed.

Lemma no_money_bag_no_name (message_text : str) :
  money_bag ∉ message_text -> extract_trader_name message_text = Ok None.
Proof.
  intros Hbag. unfold extract_trader_name.
  assert (contains [money_bag] message_text = false) as Hc
    by by apply contains_char_false.
  assert (contains from_marker message_text = false) as ->.
  { destruct (contains from_marker message_text) eqn:E; [|done].
    apply contains_from_marker_money in E. congruence. }
  by rewrite Hc.
Qed.

(** Both markers, but the first bracket does not come after a money bag and
    one more character: the bracket convention gives nothing and the prefix
    convention is not tried. *)
Lemma bracket_without_name (pre post : str) :
  money_bag ∈ pre ++ [lenticular] ++ post ->
  lenticular ∉ pre ->
  money_bag ∉ pre \/ (exists pre', pre = pre' ++ [money_bag] /\ money_bag ∉ pre') ->
  extract_trader_name (pre ++ [lenticular] ++ post) = Ok None.
Proof.
  intros Hbag Hlen Hshape. unfold extract_trader_name.
  assert (contains [money_bag] (pre ++ [lenticular] ++ post) = true) as ->
    by by apply contains_char.
  assert (contains [lenticular] (pre ++ [lenticular] ++ post) = true) as ->.
  { apply contains_char. rewrite !elem_of_app. right. left.
    by apply list_elem_of_singleton. }
  rewrite orb_true_r. cbn [andb].
  rewrite (find_char lenticular pre post Hlen).
  assert (len pre <= find (pre ++ [lenticular] ++ post) [money_bag] + 1) as Hle.
  { destruct Hshape as [Hnone|(pre' & -> & Hnone)].
    - destruct (find_cases [money_bag] (pre ++ [lenticular] ++ post))
        as [[_ Hno]|(k & -> & Hk & _)].
      { apply contains_char in Hbag. apply contains_occurs in Hbag as [j Hj].
        by destruct (Hno j). }
      apply occurs_at_char in Hk. unfold len.
      destruct (decide (k < length pre)%nat); [|lia].
      rewrite lookup_app_l in Hk by done.
      destruct Hnone. by eapply list_elem_of_lookup_2.
    - rewrite <- (app_assoc pre'). rewrite find_char by done.
      unfold len. rewrite length_app. simpl. lia. }
  destruct (Z.gtb_spec (len pre)
              (find (pre ++ [lenticular] ++ post) [money_bag] + 1)); [lia|].
  by rewrite andb_false_r.
Qed.

Lemma no_bracket_no_prefix (message_text : str) :
  lenticular ∉ message_text ->
  (forall k, ~ occurs_at from_marker message_text k) ->
  extract_trader_name message_text = Ok None.
Proof.
  intros Hlen Hprefix. unfold extract_trader_name.
  apply contains_char_false in Hlen. apply contains_false in Hprefix.
  rewrite Hprefix, Hlen, andb_false_r. cbn [orb].
  by destruct (contains [money_bag] message_text).
Qed.

Lemma prefix_without_word (pre rest : str) :
  lenticular ∉ pre ++ from_marker ++ rest ->
  first_at from_marker (pre ++ from_marker ++ rest) (length pre) ->
  Forall (fun c => is_space c = true) rest ->
  extract_trader_name (pre ++ from_marker ++ rest) = Ok None.
Proof.
  intros Hlen Hfirst Hrest. unfold extract_trader_name.
  assert (contains from_marker (pre ++ from_marker ++ rest) = true) as ->.
  { apply contains_occurs. exists (length pre). apply Hfirst. }
  apply contains_char_false in Hlen. rewrite Hlen, andb_false_r. cbn [orb].
  rewrite (split_once_first_at _ _ _ Hfirst).
  change (len [pre; rest] >? 1) with true. cbv iota.
  rewrite !index_second, bind_Ok.
  by rewrite bool_decide_eq_true_2 by (by apply strip_by_nil).
Qed.

(** C10, as the code has it. The two conventions are tried in a fixed order
    and the second only when the first does not apply.  A message that
    holds both the money bag and the bracket gives the stripped text between
    its first money bag and its first bracket, when the bracket comes after
    the money bag and the text is not blank, and nothing otherwise: the
    prefix is not looked for.  A message without bracket gives the first
    word after its first [from: ] money-bag prefix, and nothing when it has
    no such prefix or no word follows.  A message without money bag gives
    nothing.  The names come back in strictly increasing order of strings,
    so sorted and each once, and they are exactly the names found in the
    messages.  A message whose extraction raises is passed over and the
    others are collected as without it; on a text the extraction itself does
    not raise. *)
Theorem trader_names_sorted_set :
  (forall messages,
      StronglySorted (fun a b => ltb a b = true) (trader_names messages)
      /\ NoDup (trader_names messages))
  /\ (forall messages name,
        name ∈ trader_names messages <->
        exists msg, msg ∈ messages
                    /\ extract_trader_name (text msg) = Ok (Some name))
  /\ (forall pre name post,
        money_bag ∉ pre -> lenticular ∉ pre -> lenticular ∉ name ->
        strip name <> [] ->
        extract_trader_name (pre ++ [money_bag] ++ name ++ [lenticular] ++ post)
        = Ok (Some (strip name)))
  /\ (forall pre name post,
        money_bag ∉ pre -> lenticular ∉ pre -> lenticular ∉ name ->
        name <> [] -> strip name = [] ->
        extract_trader_name (pre ++ [money_bag] ++ name ++ [lenticular] ++ post)
        = Ok None)
  /\ (forall pre post,
        money_bag ∈ pre ++ [lenticular] ++ post ->
        lenticular ∉ pre ->
        money_bag ∉ pre
        \/ (exists pre', pre = pre' ++ [money_bag] /\ money_bag ∉ pre') ->
        extract_trader_name (pre ++ [lenticular] ++ post) = Ok None)
  /\ (forall pre ws word tail,
        let message_text := pre ++ from_marker ++ ws ++ word ++ tail in
        lenticular ∉ message_text ->
        first_at from_marker message_text (length pre) ->
        Forall (fun c => is_space c = true) ws ->
        word <> [] -> Forall (fun c => is_space c = false) word ->
        tail = [] \/ (exists c rest, tail = c :: rest /\ is_space c = true) ->
        extract_trader_name message_text = Ok (Some word))
  /\ (forall pre rest,
        lenticular ∉ pre ++ from_marker ++ rest ->
        first_at from_marker (pre ++ from_marker ++ rest) (length pre) ->
        Forall (fun c => is_space c = true) rest ->
        extract_trader_name (pre ++ from_marker ++ rest) = Ok None)
  /\ (forall message_text,
        lenticular ∉ message_text ->
        (forall k, ~ occurs_at from_marker message_text k) ->
        extract_trader_name message_text = Ok None)
  /\ (forall message_text,
        money_bag ∉ message_text -> extract_trader_name message_text = Ok None)
  /\ (forall body earlier later msg e,
        body (text msg) = Raise e ->
        collect_names body (earlier ++ msg :: later)
        = collect_names body (earlier ++ later))
  /\ (forall message_text, exists found,
        extract_trader_name message_text = Ok found).
Proof.
  split_and!.
  - intros messages. split; [apply trader_names_sorted|].
    unfold trader_names. rewrite sorted_by_perm. apply NoDup_elements.
  - apply elem_of_trader_names.
  - intros pre name post Hbag Hlen Hname Hstrip.
    rewrite name_between_markers; try done.
    + by rewrite bool_decide_eq_false_2.
    + by intros ->.
  - intros pre name post Hbag Hlen Hname Hne Hstrip.
    rewrite name_between_markers; try done.
    by rewrite bool_decide_eq_true_2.
  - apply bracket_without_name.
  - apply name_after_prefix.
  - apply prefix_without_word.
  - apply no_bracket_no_prefix.
  - apply no_money_bag_no_name.
  - apply collect_names_skips.
  - apply extract_trader_name_total.
Qed.

Lemma trader_names_sorted_set_witness :
  strip (lit " Zed ") <> []
  /\ extract_trader_name
       ([] ++ [money_bag] ++ lit " Zed " ++ [lenticular] ++ lit "long")
     = Ok (Some (lit "Zed"))
  /\ extract_trader_name
       (([lenticular] ++ lit "VIP ") ++ from_marker ++ lit "Amy")
     = Ok None.
Proof.
  assert (strip (lit " Zed ") <> []) as Hname by (vm_compute; discriminate).
  split_and!; [exact Hname| |].
  - apply (proj1 (proj2 (proj2 trader_names_sorted_set))
             [] (lit " Zed ") (lit "long"));
      try exact Hname; apply (bool_decide_unpack _); vm_compute; exact I.
  - apply (proj1 (proj2 (proj2 (proj2 (proj2 trader_names_sorted_set))))
             [] (lit "VIP " ++ from_marker ++ lit "Amy")).
    + apply (bool_decide_unpack _). vm_compute. exact I.
    + apply not_elem_of_nil.
    + left. apply not_elem_of_nil.
Defined.

(** C10 as the specification words it fails: this message holds the prefix
    and a word after it, so the second convention would give the name, yet
    the bracket in front makes the code try the first convention only and
    nothing is collected. *)
Lemma prefix_after_bracket_counterexample :
  let message_text :=
    ([lenticular] ++ lit "VIP ") ++ from_marker ++ lit "Amy" in
  first_at from_marker message_text 5
  /\ split_ws (lit "Amy") = [lit "Amy"]
  /\ extract_trader_name message_text = Ok None
  /\ trader_names [trade_message 1 message_text] = []
  /\ lit "Amy" ∉ trader_names [trade_message 1 message_text].
Proof.
  intros message_text. split_and!.
  - apply first_at_by_index. vm_compute. reflexivity.
  - vm_compute. reflexivity.
  - vm_compute. reflexivity.
  - vm_compute. reflexivity.
  - assert (trader_names [trade_message 1 message_text] = []) as ->
      by (vm_compute; reflexivity).
    apply not_elem_of_nil.
Qed.

(** Two conventions, one name twice, sorted. *)
Example trader_names_of_trades : trader_names trades = [lit "Amy"; lit "Zed"].
Proof. vm_compute. reflexivity. Qed.

Example failing_body_collects_nothing : collect_names failing_body trades = ∅.
Proof. vm_compute. reflexivity. Qed.

(* ------------------------------------------------------------------ *)
(** * Further properties of the code *)

(** ** The filter, beyond the claims *)

Section FilterMore.

Variable lower : str -> str.

Lemma filter_all (A : Type) (P : A -> Prop) `{!forall x, Decision (P x)}
    (l : list A) :
  (forall x, x ∈ l -> P x) -> filter P l = l.
Proof.
  induction l as [|x l IH]; intros Hall; [done|].
  rewrite filter_cons_True by (apply Hall; by left).
  f_equal. apply IH. intros y Hy. apply Hall. by right.
Qed.

Lemma filter_none (A : Type) (P : A -> Prop) `{!forall x, Decision (P x)}
    (l : list A) :
  (forall x, x ∈ l -> ~ P x) -> filter P l = [].
Proof.
  induction l as [|x l IH]; intros Hnone; [done|].
  rewrite filter_cons_False by (apply Hnone; by left).
  apply IH. intros y Hy. apply Hnone. by right.
Qed.

Lemma length_filter_disjoint (A : Type) (P Q : A -> Prop)
    `{!forall x, Decision (P x)} `{!forall x, Decision (Q x)} (l : list A) :
  (forall x, x ∈ l -> P x -> Q x -> False) ->
  (length (filter P l) + length (filter Q l) <= length l)%nat.
Proof.
  induction l as [|x l IH]; intros Hdis; [done|].
  assert (length (filter P l) + length (filter Q l) <= length l)%nat as Hl.
  { apply IH. intros y Hy. apply Hdis. by right. }
  rewrite !filter_cons.
  destruct (decide (P x)) as [HP|HP], (decide (Q x)) as [HQ|HQ]; simpl; try lia.
  destruct (Hdis x); [by left|done|done].
Qed.

(** A context message is never one of a target's own messages. *)
Lemma context_not_from_target (targets : list str)
    (messages : list Message) (msg : Message) :
  msg ∈ context_messages messages
          (filter (fun m => is_from_target lower targets m) messages) ->
  is_from_target lower targets msg = false.
Proof.
  intros Hctx. apply elem_of_context in Hctx as (Hin & _ & Hid).
  destruct (is_from_target lower targets msg) eqn:E; [|done].
  destruct Hid. apply list_elem_of_fmap_2, list_elem_of_filter.
  split; [by rewrite E|done].
Qed.

End FilterMore.

(** X1. Whatever the targets, the filtered list is no longer than the
    extended one and the extended one no longer than the input: a message is
    never counted twice, also when ids repeat. *)
Theorem counts_are_ordered lower (messages : list Message)
    (targets : option (list Target)) :
  let filtered := fst (filter_and_extend_messages lower messages targets) in
  let extended := snd (filter_and_extend_messages lower messages targets) in
  (length filtered <= length extended <= length messages)%nat.
Proof.
  destruct targets as [[|t ts]|]; simpl; [lia| |lia].
  rewrite length_app. split; [lia|].
  apply length_filter_disjoint. intros msg Hin Hfrom Hctx.
  apply andb_True in Hctx as [_ Hid]. apply negb_True in Hid.
  apply Hid, bool_decide_pack. apply elem_of_list_to_set.
  apply list_elem_of_fmap_2, list_elem_of_filter. by split.
Qed.

(** X2. Targets that match no message give two empty lists, not an error. *)
Theorem no_match_gives_nothing lower (messages : list Message)
    (targets : list Target) :
  targets <> [] ->
  (forall msg, msg ∈ messages ->
     is_from_target lower (target_users_lower lower targets) msg = false) ->
  filter_and_extend_messages lower messages (Some targets) = ([], []).
Proof.
  intros Hne Hnone. destruct targets as [|t ts]; [done|].
  unfold filter_and_extend_messages.
  rewrite (filter_none _ _ messages).
  - rewrite app_nil_l. f_equal. apply filter_none.
    intros msg _ Hctx. apply andb_True in Hctx as [Href _].
    apply bool_decide_unpack in Href. by apply elem_of_empty in Href.
  - intros msg Hin Hfrom. by rewrite (Hnone msg Hin) in Hfrom.
Qed.

Lemma no_match_gives_nothing_witness :
  [TName (lit "dave")] <> []
  /\ filter_and_extend_messages ascii_lower sample_chat
       (Some [TName (lit "dave")]) = ([], []).
Proof.
  split; [discriminate|].
  apply (no_match_gives_nothing ascii_lower sample_chat [TName (lit "dave")]);
    [discriminate|].
  intros msg Hin. repeat (apply elem_of_cons in Hin as [->|Hin];
                          [vm_compute; reflexivity|]).
  by apply elem_of_nil in Hin.
Defined.

(** X4. Only the set of normalised tokens counts: target lists that give the
    same tokens, in any order and with any repetition or spelling, select the
    same messages and the same context. *)
Theorem same_tokens_same_selection lower (messages : list Message)
    (targets1 targets2 : list Target) :
  targets1 <> [] -> targets2 <> [] ->
  (forall t, t ∈ target_users_lower lower targets1
             <-> t ∈ target_users_lower lower targets2) ->
  filter_and_extend_messages lower messages (Some targets1)
  = filter_and_extend_messages lower messages (Some targets2).
Proof.
  intros Hne1 Hne2 Hsame.
  destruct targets1 as [|a1 r1]; [done|]. destruct targets2 as [|a2 r2]; [done|].
  unfold filter_and_extend_messages.
  assert (filter (fun msg => is_from_target lower
                               (target_users_lower lower (a1 :: r1)) msg)
                 messages
          = filter (fun msg => is_from_target lower
                                 (target_users_lower lower (a2 :: r2)) msg)
                   messages) as ->; [|done].
  apply list_filter_iff. intros msg. unfold is_from_target.
  by rewrite !orb_True, !bool_decide_spec, !Hsame.
Qed.

Lemma same_tokens_same_selection_witness :
  filter_and_extend_messages ascii_lower sample_chat (Some [TName (lit "@Bob")])
  = filter_and_extend_messages ascii_lower sample_chat
      (Some [TName (lit "bob"); TName (lit "BOB@")]).
Proof.
  apply same_tokens_same_selection; [discriminate|discriminate|].
  intros t.
  assert (target_users_lower ascii_lower [TName (lit "@Bob")] = [lit "bob"])
    as -> by (vm_compute; reflexivity).
  assert (target_users_lower ascii_lower [TName (lit "bob"); TName (lit "BOB@")]
          = [lit "bob"; lit "bob"]) as -> by (vm_compute; reflexivity).
  rewrite !elem_of_cons. tauto.
Defined.

(** X5. Filtering the extended output again with the same targets changes
    nothing: it gives back the same filtered list and the same extended
    list. *)
Theorem filter_and_extend_idempotent lower (messages : list Message)
    (targets : option (list Target)) :
  filter_and_extend_messages lower
    (snd (filter_and_extend_messages lower messages targets)) targets
  = filter_and_extend_messages lower messages targets.
Proof.
  destruct targets as [[|t ts]|]; [done| |done].
  unfold filter_and_extend_messages. cbn [snd].
  set (tokens := target_users_lower lower (t :: ts)).
  set (kept := filter (fun msg => is_from_target lower tokens msg) messages).
  set (context := context_messages messages kept).
  assert (filter (fun msg => is_from_target lower tokens msg) (kept ++ context)
          = kept) as Hkept.
  { rewrite filter_app, (filter_all _ _ kept), (filter_none _ _ context).
    - apply app_nil_r.
    - intros msg Hin Hfrom.
      by rewrite (context_not_from_target lower tokens messages msg Hin) in Hfrom.
    - intros msg Hin. by apply list_elem_of_filter in Hin as [? _]. }
  rewrite Hkept. f_equal. f_equal.
  unfold context_messages at 1. fold (filtered_ids kept).
  rewrite filter_app, (filter_none _ _ kept).
  - rewrite app_nil_l. apply filter_all.
    intros msg Hin. by apply list_elem_of_filter in Hin as [? _].
  - intros msg Hin Hctx. apply andb_True in Hctx as [_ Hid].
    apply negb_True in Hid. apply Hid, bool_decide_pack.
    apply elem_of_list_to_set. by apply list_elem_of_fmap_2.
Qed.

(** ** Grouping by participant *)

Lemma elem_of_first_occurrences (names : list str) (name : str) :
  name ∈ first_occurrences names <-> name ∈ names.
Proof.
  induction names as [|n names IH]; simpl; [done|].
  rewrite !elem_of_cons, list_elem_of_filter, IH.
  destruct (decide (name = n)); tauto.
Qed.

Lemma NoDup_first_occurrences (names : list str) :
  NoDup (first_occurrences names).
Proof.
  induction names as [|n names IH]; simpl; [constructor|].
  apply NoDup_cons. split; [|by apply NoDup_filter].
  rewrite list_elem_of_filter. by intros [? _].
Qed.

Lemma first_occurrences_snoc (names : list str) (name : str) :
  first_occurrences (names ++ [name])
  = if decide (name ∈ names) then first_occurrences names
    else first_occurrences names ++ [name].
Proof.
  induction names as [|n names IH]; simpl; [done|]. rewrite IH.
  destruct (decide (name ∈ names)) as [Hin|Hin].
  - rewrite decide_True by (by right). done.
  - rewrite filter_app. destruct (decide (name = n)) as [->|Hne].
    + rewrite decide_True by (by left).
      by rewrite filter_cons_False, filter_nil, app_nil_r by (by intros ?).
    + rewrite decide_False by (rewrite elem_of_cons; tauto).
      by rewrite filter_cons_True, filter_nil.
Qed.

Lemma add_message_keys (name : str) (msg : Message)
    (participants : list (str * list Message)) :
  fst <$> add_message name msg participants
  = if decide (name ∈ (fst <$> participants)) then fst <$> participants
    else (fst <$> participants) ++ [name].
Proof.
  induction participants as [|[n l] rest IH]; [done|]. cbn [add_message].
  destruct (decide (n = name)) as [->|Hne]; rewrite !fmap_cons; cbn [fst].
  - by rewrite decide_True by (by left).
  - rewrite IH. destruct (decide (name ∈ (fst <$> rest))) as [Hin|Hin].
    + by rewrite decide_True by (by right).
    + rewrite decide_False; [done|]. rewrite elem_of_cons.
      intros [->|?]; done.
Qed.

Lemma elem_of_add_message (name : str) (msg : Message)
    (participants : list (str * list Message)) (n : str) (g : list Message) :
  NoDup (fst <$> participants) ->
  (n, g) ∈ add_message name msg participants ->
  (n <> name /\ (n, g) ∈ participants)
  \/ (n = name /\ exists g0, (name, g0) ∈ participants /\ g = g0 ++ [msg])
  \/ (n = name /\ (name ∉ (fst <$> participants)) /\ g = [msg]).
Proof.
  induction participants as [|[k l] rest IH]; simpl; intros Hnd Hin.
  - apply list_elem_of_singleton in Hin as [= -> ->].
    right. right. split_and!; [done| |done]. apply not_elem_of_nil.
  - apply NoDup_cons in Hnd as [Hk Hnd].
    destruct (decide (k = name)) as [->|Hne].
    + apply elem_of_cons in Hin as [[= -> ->]|Hin].
      * right. left. split; [done|]. exists l. split; [by left|done].
      * left. split; [|by right]. intros ->. apply Hk.
        by apply (list_elem_of_fmap_2 fst) in Hin.
    + apply elem_of_cons in Hin as [[= -> ->]|Hin].
      * left. split; [done|by left].
      * destruct (IH Hnd Hin) as [[? ?]|[(-> & g0 & Hg0 & ->)|(-> & Hfresh & ->)]].
        -- left. split; [done|by right].
        -- right. left. split; [done|]. exists g0. split; [by right|done].
        -- right. right. split_and!; [done| |done].
           rewrite not_elem_of_cons. by split.
Qed.

Lemma add_message_perm (name : str) (msg : Message)
    (participants : list (str * list Message)) :
  concat (snd <$> add_message name msg participants)
  ≡ₚ msg :: concat (snd <$> participants).
Proof.
  induction participants as [|[n l] rest IH]; [done|]. cbn [add_message].
  destruct (decide (n = name)); rewrite !fmap_cons; cbn [snd concat].
  - rewrite <- app_assoc. symmetry. apply Permutation_middle.
  - rewrite IH. symmetry. apply Permutation_middle.
Qed.

Lemma organize_snoc (messages : list Message) (msg : Message) :
  organize_by_participant (messages ++ [msg])
  = add_message (sender_name msg) msg (organize_by_participant messages).
Proof. unfold organize_by_participant. by rewrite foldl_app. Qed.

Lemma organize_keys (messages : list Message) :
  fst <$> organize_by_participant messages
  = first_occurrences (sender_name <$> messages).
Proof.
  induction messages as [|msg messages IH] using rev_ind; [done|].
  rewrite organize_snoc, add_message_keys, IH, fmap_app.
  change (sender_name <$> [msg]) with [sender_name msg].
  rewrite first_occurrences_snoc.
  destruct (decide (sender_name msg ∈ (sender_name <$> messages))).
  - by rewrite decide_True by (by apply elem_of_first_occurrences).
  - by rewrite decide_False by (by rewrite elem_of_first_occurrences).
Qed.

Lemma organize_group (messages : list Message) (name : str)
    (group : list Message) :
  (name, group) ∈ organize_by_participant messages ->
  group = filter (fun msg => sender_name msg = name) messages.
Proof.
  revert name group.
  induction messages as [|msg messages IH] using rev_ind; intros name group Hin.
  - by apply elem_of_nil in Hin.
  - rewrite organize_snoc in Hin. rewrite filter_app.
    apply elem_of_add_message in Hin
        as [[Hne Hin]|[(-> & g0 & Hg0 & ->)|(-> & Hfresh & ->)]].
    + rewrite (IH _ _ Hin), filter_cons_False by (by intros ?).
      by rewrite filter_nil, app_nil_r.
    + by rewrite (IH _ _ Hg0), filter_cons_True, filter_nil.
    + rewrite filter_cons_True, filter_nil by done.
      rewrite (filter_none _ _ messages); [done|].
      intros other Hother Hsame. apply Hfresh.
      rewrite organize_keys, elem_of_first_occurrences, <- Hsame.
      by apply list_elem_of_fmap_2.
    + rewrite organize_keys. apply NoDup_first_occurrences.
Qed.

Lemma organize_perm (messages : list Message) :
  concat (snd <$> organize_by_participant messages) ≡ₚ messages.
Proof.
  induction messages as [|msg messages IH] using rev_ind; [done|].
  rewrite organize_snoc, add_message_perm, IH.
  by rewrite Permutation_app_comm.
Qed.

(** X6. Grouping loses and reorders nothing: the list kept under a name is
    the input restricted to that sender, in input order, it is never empty,
    every message is found under its sender, and the groups together hold
    the messages of the input, each once. *)
Theorem groups_are_the_senders_messages (messages : list Message) :
  (forall name group,
      (name, group) ∈ organize_by_participant messages ->
      group = filter (fun msg => sender_name msg = name) messages
      /\ group <> [])
  /\ (forall msg,
        msg ∈ messages ->
        (sender_name msg,
         filter (fun other => sender_name other = sender_name msg) messages)
        ∈ organize_by_participant messages)
  /\ concat (snd <$> organize_by_participant messages) ≡ₚ messages.
Proof.
  split_and!.
  - intros name group Hin. split; [by apply organize_group|].
    assert (name ∈ (sender_name <$> messages)) as Hname.
    { apply elem_of_first_occurrences. rewrite <- organize_keys.
      by apply (list_elem_of_fmap_2 fst) in Hin. }
    apply list_elem_of_fmap in Hname as (msg & -> & Hmsg).
    rewrite (organize_group _ _ _ Hin). intros Hnil.
    assert (msg ∈ filter (fun other => sender_name other = sender_name msg)
                         messages) as Hbad
      by (apply list_elem_of_filter; by split).
    rewrite Hnil in Hbad. by apply elem_of_nil in Hbad.
  - intros msg Hmsg.
    assert (sender_name msg ∈ (fst <$> organize_by_participant messages)) as Hkey.
    { rewrite organize_keys. apply elem_of_first_occurrences.
      by apply list_elem_of_fmap_2. }
    apply list_elem_of_fmap in Hkey as ([name group] & Hname & Hin).
    simpl in Hname. subst name.
    by rewrite <- (organize_group _ _ _ Hin).
  - apply organize_perm.
Qed.

(** X7. The names of the groups are the sender names of the input, each
    once, in the order of their first message. *)
Theorem groups_in_order_of_first_message (messages : list Message) :
  fst <$> organize_by_participant messages
  = first_occurrences (sender_name <$> messages)
  /\ NoDup (fst <$> organize_by_participant messages)
  /\ (forall name, name ∈ (fst <$> organize_by_participant messages)
                   <-> exists msg, msg ∈ messages /\ sender_name msg = name).
Proof.
  split_and!.
  - apply organize_keys.
  - rewrite organize_keys. apply NoDup_first_occurrences.
  - intros name. rewrite organize_keys, elem_of_first_occurrences.
    rewrite list_elem_of_fmap. split.
    + intros (msg & -> & Hmsg). by exists msg.
    + intros (msg & Hmsg & <-). by exists msg.
Qed.

Example sample_chat_groups :
  fst <$> organize_by_participant (sample_chat ++ [bob_reply])
  = [lit "@bob"; lit "Carol C"; lit "@alice"].
Proof. vm_compute. reflexivity. Qed.

(** ** The transcript, beyond the claims *)

Lemma split_char_without (sep : char) (s : str) :
  sep ∉ s -> split_char sep s = [s].
Proof.
  induction s as [|c s IH]; [done|]. rewrite not_elem_of_cons.
  intros [Hc Hs]. simpl. rewrite bool_decide_eq_false_2 by (by intros ->).
  by rewrite IH.
Qed.

Lemma split_char_app (sep : char) (part rest : str) :
  sep ∉ part ->
  split_char sep (part ++ [sep] ++ rest) = part :: split_char sep rest.
Proof.
  induction part as [|c part IH]; simpl.
  - intros _. by rewrite bool_decide_eq_true_2.
  - rewrite not_elem_of_cons. intros [Hc Hpart].
    rewrite bool_decide_eq_false_2 by (by intros ->).
    simpl in IH. by rewrite IH.
Qed.

(** Joining with a separator and splitting at it give back the parts. *)
Lemma split_char_join (sep : char) (parts : list str) :
  parts <> [] -> Forall (fun part => sep ∉ part) parts ->
  split_char sep (join [sep] parts) = parts.
Proof.
  intros Hne Hparts. induction Hparts as [|part rest Hpart Hrest IH]; [done|].
  destruct rest as [|next rest].
  - simpl. by apply split_char_without.
  - change (join [sep] (part :: next :: rest))
      with (part ++ [sep] ++ join [sep] (next :: rest)).
    rewrite split_char_app by done. f_equal. by apply IH.
Qed.

(** X8. Splitting the transcript at its newlines gives back the rendered
    messages, one per message and in date order, when there is a message and
    no rendered field holds a newline. *)
Theorem transcript_splits_into_entries (messages : list Message) :
  messages <> [] -> Forall single_line messages ->
  split_char newline (all_messages_text messages)
  = format_message <$> sorted_by datetime messages.
Proof.
  intros Hne Hlines. unfold all_messages_text, all_formatted_messages.
  apply split_char_join.
  - intros Hnil. apply (f_equal length) in Hnil.
    rewrite length_fmap, length_sorted_by in Hnil. by destruct messages.
  - apply Forall_fmap. rewrite (sorted_by_perm datetime messages).
    eapply Forall_impl; [exact Hlines|].
    intros msg Hmsg. by apply format_message_single_line.
Qed.

Lemma transcript_splits_into_entries_witness :
  sample_chat <> [] /\ Forall single_line sample_chat
  /\ split_char newline (all_messages_text sample_chat)
     = format_message <$> [alice_question; carol_note; bob_reply].
Proof.
  assert (Forall single_line sample_chat) as Hlines.
  { repeat constructor; by apply single_line_sample. }
  split_and!; [discriminate|exact Hlines|].
  rewrite (transcript_splits_into_entries sample_chat ltac:(discriminate) Hlines).
  vm_compute. reflexivity.
Defined.

Lemma filter_key_short {A} (key : A -> str) (k : str) (l : list A) :
  NoDup (key <$> l) -> (length (filter (fun x => key x = k) l) <= 1)%nat.
Proof.
  induction l as [|x l IH]; [simpl; lia|]. rewrite fmap_cons, NoDup_cons.
  intros [Hx Hl]. rewrite filter_cons. destruct (decide (key x = k)) as [<-|].
  - rewrite (filter_none _ _ l); [simpl; lia|].
    intros y Hy Hsame. apply Hx. rewrite <- Hsame. by apply list_elem_of_fmap_2.
  - by apply IH.
Qed.

Lemma short_perm_eq {A} (l1 l2 : list A) :
  l1 ≡ₚ l2 -> (length l1 <= 1)%nat -> l1 = l2.
Proof.
  intros Hperm Hlen. destruct l1 as [|x [|y l1]]; [| |simpl in Hlen; lia].
  - by apply Permutation_nil_l in Hperm.
  - by apply Permutation_singleton_l in Hperm.
Qed.

Lemma sorted_by_perm_invariant {A} (key : A -> str) (l1 l2 : list A) :
  l1 ≡ₚ l2 -> NoDup (key <$> l1) -> sorted_by key l1 = sorted_by key l2.
Proof.
  intros Hperm Hnd. apply (stable_sorted_unique key); try apply sorted_by_sorted.
  intros k. rewrite !sorted_by_stable. apply short_perm_eq.
  - by rewrite Hperm.
  - by apply filter_key_short.
Qed.

(** X9. With pairwise distinct dates the transcript depends on the set of
    messages only, not on the order in which they come in: whether context
    messages are appended or interleaved makes no difference. *)
Theorem transcript_ignores_input_order (messages1 messages2 : list Message) :
  messages1 ≡ₚ messages2 -> NoDup (datetime <$> messages1) ->
  all_messages_text messages1 = all_messages_text messages2.
Proof.
  intros Hperm Hnd. unfold all_messages_text, all_formatted_messages.
  by rewrite (sorted_by_perm_invariant datetime messages1 messages2).
Qed.

Lemma transcript_ignores_input_order_witness :
  all_messages_text sample_chat
  = all_messages_text [carol_note; alice_question; bob_reply].
Proof.
  apply transcript_ignores_input_order.
  - apply (Permutation_app_comm [bob_reply] [carol_note; alice_question]).
  - apply (bool_decide_unpack _). vm_compute. exact I.
Defined.

Lemma StronglySorted_snoc {A} (R : A -> A -> Prop) (l : list A) (x : A) :
  StronglySorted R l -> Forall (fun y => R y x) l ->
  StronglySorted R (l ++ [x]).
Proof.
  induction 1 as [|y l Hl IH Hy]; intros Hx; simpl; [by repeat constructor|].
  apply Forall_cons_1 in Hx as [Hyx Hx]. constructor; [by apply IH|].
  apply Forall_app. split; [done|by constructor].
Qed.

(** X10. A list that is already in date order keeps its order, and a list
    that comes newest first with strictly decreasing dates is turned
    round. *)
Theorem transcript_order_of_ordered_input (messages : list Message) :
  (StronglySorted (key_le datetime) messages ->
   sorted_by datetime messages = messages)
  /\ (StronglySorted (fun newer older =>
                        ltb (datetime older) (datetime newer) = true) messages ->
      sorted_by datetime messages = reverse messages).
Proof.
  split.
  - intros Hsorted. symmetry. apply sorted_by_unique; done.
  - intros Hdesc.
    assert (NoDup (datetime <$> messages)) as Hnd.
    { induction Hdesc as [|x l Hl IH Hx]; [constructor|].
      rewrite fmap_cons. apply NoDup_cons. split; [|done].
      intros Hin. apply list_elem_of_fmap in Hin as (y & Hxy & Hy).
      pose proof (proj1 (Forall_forall _ _) Hx y Hy) as Hlt.
      rewrite Hxy, ltb_irrefl in Hlt. done. }
    rewrite <- (sorted_by_perm_invariant datetime (reverse messages) messages);
      [|apply reverse_Permutation|].
    + symmetry. apply sorted_by_unique; [|done].
      clear Hnd. induction Hdesc as [|x l Hl IH Hx]; [constructor|].
      rewrite reverse_cons. apply StronglySorted_snoc; [done|].
      apply Forall_forall. intros y Hy. rewrite elem_of_reverse in Hy.
      apply ltb_leb. by apply (proj1 (Forall_forall _ _) Hx y Hy).
    + by rewrite fmap_reverse, reverse_Permutation.
Qed.

Lemma transcript_order_of_ordered_input_witness :
  sorted_by datetime sample_chat = reverse sample_chat.
Proof.
  apply (transcript_order_of_ordered_input sample_chat).
  repeat (constructor; [|repeat constructor; vm_compute; reflexivity]).
  constructor.
Defined.

(** ** Trader names, beyond the claims *)

Lemma extract_trader_name_Some (message_text name : str) :
  extract_trader_name message_text = Ok (Some name) ->
  name <> [] /\ exists source, name = strip source.
Proof.
  unfold extract_trader_name.
  destruct (_ || _); [|done].
  destruct (_ && _).
  { destruct (_ && _); [|done].
    destruct (bool_decide _) eqn:E; [done|]. intros [= <-].
    apply bool_decide_eq_false in E. eauto. }
  destruct (contains from_marker message_text); [|done].
  destruct (split_once_shape from_marker message_text)
    as [->|(a & b & ->)]; [done|].
  change (len [a; b] >? 1) with true. cbv iota.
  rewrite !index_second, bind_Ok.
  destruct (bool_decide (strip b = [])); [done|]. rewrite bind_Ok.
  destruct (split_ws b) as [|word words]; [done|].
  rewrite index_first, bind_Ok.
  destruct (bool_decide _) eqn:E; [done|]. intros [= <-].
  apply bool_decide_eq_false in E. eauto.
Qed.

(** X11. A trader name is never empty and neither starts nor ends with white
    space. *)
Theorem trader_names_are_trimmed (messages : list Message) (name : str) :
  name ∈ trader_names messages -> name <> [] /\ trimmed is_space name.
Proof.
  intros Hin. apply elem_of_trader_names in Hin as (msg & _ & Hname).
  apply extract_trader_name_Some in Hname as [Hne (source & ->)].
  split; [done|].
  by destruct (strip_by_spec is_space source) as (_ & _ & _ & _ & _ & ?).
Qed.

Lemma trader_names_are_trimmed_witness :
  lit "Zed" ∈ trader_names trades
  /\ lit "Zed" <> [] /\ trimmed is_space (lit "Zed").
Proof.
  assert (lit "Zed" ∈ trader_names trades) as Hin
    by (apply (bool_decide_unpack _); vm_compute; exact I).
  split; [exact Hin|]. exact (trader_names_are_trimmed trades (lit "Zed") Hin).
Defined.

(** X12. A message without the money bag gives no name, and once a money bag
    and a bracket are both present only the bracket convention is tried: if
    the first bracket does not come after a money bag and at least one more
    character, the message gives no name, whatever prefix it holds. *)
Theorem no_trader_name_edges :
  (forall message_text,
      money_bag ∉ message_text -> extract_trader_name message_text = Ok None)
  /\ (forall pre post,
        money_bag ∈ pre ++ [lenticular] ++ post ->
        lenticular ∉ pre ->
        money_bag ∉ pre
        \/ (exists pre', pre = pre' ++ [money_bag] /\ money_bag ∉ pre') ->
        extract_trader_name (pre ++ [lenticular] ++ post) = Ok None).
Proof.
  split.
  - intros message_text Hbag. unfold extract_trader_name.
    assert (contains [money_bag] message_text = false) as Hc
      by by apply contains_char_false.
    assert (contains from_marker message_text = false) as ->.
    { destruct (contains from_marker message_text) eqn:E; [|done].
      apply contains_from_marker_money in E. congruence. }
    by rewrite Hc.
  - intros pre post Hbag Hlen Hshape. unfold extract_trader_name.
    assert (contains [money_bag] (pre ++ [lenticular] ++ post) = true) as ->
      by by apply contains_char.
    assert (contains [lenticular] (pre ++ [lenticular] ++ post) = true) as ->.
    { apply contains_char. rewrite !elem_of_app. right. left.
      by apply list_elem_of_singleton. }
    rewrite orb_true_r. cbn [andb].
    rewrite (find_char lenticular pre post Hlen).
    assert (len pre <= find (pre ++ [lenticular] ++ post) [money_bag] + 1) as Hle.
    { destruct Hshape as [Hnone|(pre' & -> & Hnone)].
      - destruct (find_cases [money_bag] (pre ++ [lenticular] ++ post))
          as [[_ Hno]|(k & -> & Hk & _)].
        { apply contains_char in Hbag. apply contains_occurs in Hbag as [j Hj].
          by destruct (Hno j). }
        apply occurs_at_char in Hk. unfold len.
        destruct (decide (k < length pre)%nat); [|lia].
        rewrite lookup_app_l in Hk by done.
        destruct Hnone. by eapply list_elem_of_lookup_2.
      - rewrite <- (app_assoc pre'). rewrite find_char by done.
        unfold len. rewrite length_app. simpl. lia. }
    destruct (Z.gtb_spec (len pre)
                (find (pre ++ [lenticular] ++ post) [money_bag] + 1)); [lia|].
    by rewrite andb_false_r.
Qed.

Lemma no_trader_name_edges_witness :
  (money_bag ∉ lit "no trader here")
  /\ extract_trader_name (lit "no trader here") = Ok None.
Proof.
  assert (money_bag ∉ lit "no trader here") as Hbag
    by (apply (bool_decide_unpack _); vm_compute; exact I).
  split; [exact Hbag|]. exact (proj1 no_trader_name_edges _ Hbag).
Defined.

(** The bracket comes first: the prefix convention is not tried. *)
Example bracket_before_money_bag :
  extract_trader_name
    ([lenticular] ++ lit "VIP" ++ lit " from: " ++ [money_bag] ++ lit "Amy")
  = Ok None.
Proof. vm_compute. reflexivity. Qed.

(** ** The participants block *)

Lemma participants_marker_fence : fence `prefix_of` participants_marker.
Proof. by exists (lit "participants"). Qed.

Lemma first_at_cons (sub s : str) (c : char) (k : nat) :
  ~ sub `prefix_of` c :: s -> first_at sub s k -> first_at sub (c :: s) (S k).
Proof.
  intros Hhead [Hk Hj]. split; [done|].
  intros [|j] Hlt; [done|]. apply Hj. lia.
Qed.

Lemma participants_text_section (raw pre content post : str) :
  participants_section raw pre content post ->
  participants_text raw = Some (strip (lit "s" ++ content)).
Proof.
  intros (Hraw & Hmarker & Hfence). unfold participants_text.
  assert (contains participants_marker raw = true) as ->.
  { apply contains_occurs. exists (length pre). apply Hmarker. }
  assert (contains fence raw = true) as ->.
  { apply contains_occurs. exists (length pre).
    eapply occurs_at_prefix; [apply participants_marker_fence|apply Hmarker]. }
  cbn [andb]. rewrite (find_first_at _ _ _ Hmarker).
  set (head := pre ++ lit "```participant").
  assert (raw = head ++ (lit "s" ++ content) ++ fence ++ post) as Hraw'.
  { subst head. rewrite Hraw, <- !app_assoc. reflexivity. }
  assert (Z.of_nat (length pre) + 14 = Z.of_nat (length head)) as ->.
  { subst head. rewrite length_app. simpl. lia. }
  rewrite (find_from_first_at raw fence _ (length (lit "s" ++ content))).
  - destruct (Z.gtb_spec
                (Z.of_nat (length head)
                 + Z.of_nat (length (lit "s" ++ content)))
                (Z.of_nat (length head))) as [_|Hle];
      [|simpl in Hle; lia].
    do 2 f_equal. rewrite Hraw'. apply slice_middle.
  - rewrite Hraw', !length_app. lia.
  - rewrite Hraw', drop_app_length.
    apply (first_at_cons fence (content ++ fence ++ post) 115%N (length content));
      [|exact Hfence].
    intros Hp. by apply prefix_cons_inv_1 in Hp.
Qed.

Lemma lstrip_by_app_l (p : char -> bool) (x y : str) :
  lstrip_by p x <> [] -> lstrip_by p (x ++ y) = lstrip_by p x ++ y.
Proof.
  induction x as [|c x IH]; simpl; [done|].
  destruct (p c); [apply IH|done].
Qed.

Lemma rstrip_by_app_r (p : char -> bool) (x y : str) :
  rstrip_by p y <> [] -> rstrip_by p (x ++ y) = x ++ rstrip_by p y.
Proof.
  unfold rstrip_by. intros Hne. rewrite reverse_app, lstrip_by_app_l.
  - by rewrite reverse_app, reverse_involutive.
  - intros Hnil. apply Hne. by rewrite Hnil.
Qed.

Lemma rstrip_by_app_spaces (p : char -> bool) (x y : str) :
  rstrip_by p y = [] -> rstrip_by p (x ++ y) = rstrip_by p x.
Proof.
  unfold rstrip_by. intros Hnil. rewrite reverse_app.
  assert (Forall (fun c => p c = true) (reverse y)) as Hy.
  { destruct (lstrip_by_spec p (reverse y)) as (a & Hs & Ha & _).
    assert (lstrip_by p (reverse y) = []) as Hl.
    { apply (f_equal reverse) in Hnil.
      by rewrite reverse_involutive in Hnil. }
    by rewrite Hs, Hl, app_nil_r. }
  by rewrite lstrip_by_app.
Qed.

Lemma marker_letter_skips : skips (lit "s").
Proof.
  apply plain_line_skips.
  - intros [Hb _]. revert Hb. apply (bool_decide_unpack _). vm_compute. exact I.
  - apply (bool_decide_unpack _). vm_compute. exact I.
Qed.

(** X13. The block of the participants section starts one character before
    the end of its marker: it is the last letter of the marker followed by
    the content between the marker and the first fence after it, stripped. *)
Theorem participants_block_keeps_marker_letter (raw pre content post : str) :
  participants_section raw pre content post ->
  participants_text raw = Some (strip (lit "s" ++ content))
  /\ parse_participants raw
     = process_lines ∅ (split_char newline (strip (lit "s" ++ content))).
Proof.
  intros Hsection. unfold parse_participants.
  by rewrite (participants_text_section _ _ _ _ Hsection).
Qed.

Lemma participants_block_keeps_marker_letter_witness :
  let raw := lit "```participants Bob: chess```" in
  participants_section raw [] (lit " Bob: chess") []
  /\ parse_participants raw = Ok (<[lit "s Bob" := lit "chess"]> ∅).
Proof.
  intros raw.
  assert (participants_section raw [] (lit " Bob: chess") []) as Hsection.
  { split_and!; [reflexivity| |];
      apply first_at_by_index; vm_compute; reflexivity. }
  split; [exact Hsection|].
  rewrite (proj2 (participants_block_keeps_marker_letter _ _ _ _ Hsection)).
  vm_compute. reflexivity.
Defined.

(** X14. When a newline follows the marker, that letter is a line of its own
    and is ignored: the dictionary is the one of the lines after the marker,
    trailing white space removed. *)
Theorem participants_after_newline (raw pre body post : str) :
  participants_section raw pre ([newline] ++ body) post ->
  parse_participants raw
  = process_lines ∅ (split_char newline (rstrip_by is_space body)).
Proof.
  intros Hsection.
  rewrite (proj2 (participants_block_keeps_marker_letter _ _ _ _ Hsection)).
  unfold strip, strip_by.
  change (lstrip_by is_space (lit "s" ++ [newline] ++ body))
    with (lit "s" ++ [newline] ++ body).
  destruct (rstrip_by is_space body) as [|c rest] eqn:Hbody.
  - rewrite (app_assoc (lit "s")), rstrip_by_app_spaces by done. reflexivity.
  - rewrite (app_assoc (lit "s")), rstrip_by_app_r by (by rewrite Hbody).
    rewrite Hbody, <- app_assoc.
    rewrite (split_char_app newline (lit "s") (c :: rest))
      by (apply (bool_decide_unpack _); vm_compute; exact I).
    cbn [process_lines]. by rewrite marker_letter_skips.
Qed.

Lemma participants_after_newline_witness :
  let body := lit "[Alice]: went shopping" ++ [newline]
                ++ lit "Bob: played chess" ++ [newline] in
  let raw := lit "```participants" ++ [newline] ++ body ++ lit "```" in
  participants_section raw [] ([newline] ++ body) []
  /\ parse_participants raw
     = Ok (<[lit "Bob" := lit "played chess"]>
             (<[lit "Alice" := lit "went shopping"]> ∅)).
Proof.
  intros body raw.
  assert (participants_section raw [] ([newline] ++ body) []) as Hsection.
  { split_and!; [reflexivity| |];
      apply first_at_by_index; vm_compute; reflexivity. }
  split; [exact Hsection|].
  rewrite (participants_after_newline _ _ _ _ Hsection).
  vm_compute. reflexivity.
Defined.

(** ** The request, beyond the claims *)

Section PipelineMore.

Variable lower : str -> str.
Variable get_prompt : str -> result str.
Variable format_prompt : str -> str -> str -> result str.
Variable str_of_exn : exn -> str.
Variable ai : str -> str -> str -> result str.

Lemma generate_summaries_answer (extended : list Message)
    (participants : list (str * list Message)) (model prompt response : str) :
  built_prompt get_prompt format_prompt extended participants = Ok prompt ->
  ai (all_messages_text extended) model prompt = Ok response ->
  exists by_name,
    parse_response response
    = Ok (default response (parse_overall response), by_name)
    /\ fst (generate_summaries get_prompt format_prompt str_of_exn ai
              extended participants model)
       = (default response (parse_overall response), by_name).
Proof.
  intros Hprompt Hai. unfold generate_summaries.
  unfold built_prompt in Hprompt. rewrite Hprompt, Hai.
  destruct (parse_response_overall response) as (by_name & _ & Hparse).
  exists by_name. by rewrite Hparse.
Qed.

Lemma generate_summaries_failure (extended : list Message)
    (participants : list (str * list Message)) (model prompt : str) (e : exn) :
  built_prompt get_prompt format_prompt extended participants = Ok prompt ->
  ai (all_messages_text extended) model prompt = Raise e ->
  fst (generate_summaries get_prompt format_prompt str_of_exn ai
         extended participants model)
  = (lit "Error generating unified summary: " ++ str_of_exn e, ∅).
Proof.
  intros Hprompt Hai. unfold generate_summaries.
  unfold built_prompt in Hprompt. by rewrite Hprompt, Hai.
Qed.

Lemma generate_summaries_no_prompt (extended : list Message)
    (participants : list (str * list Message)) (model : str) (e : exn) :
  built_prompt get_prompt format_prompt extended participants = Raise e ->
  generate_summaries get_prompt format_prompt str_of_exn ai
    extended participants model
  = ((lit "Error generating unified summary: " ++ str_of_exn NameError, ∅), []).
Proof.
  intros Hprompt. unfold generate_summaries.
  unfold built_prompt in Hprompt. by rewrite Hprompt.
Qed.

End PipelineMore.

(** X16. Once the prompt is built the model's outcome decides the summaries:
    an answer is parsed, and parsing cannot fail, so the summaries are the
    parsed ones; a failure of the call becomes the overall summary, as a text
    that starts with [Error generating unified summary: ], with no
    participant summaries. *)
Theorem model_outcome_decides_summaries get_prompt format_prompt str_of_exn ai
    (extended : list Message) (participants : list (str * list Message))
    (model prompt : str) :
  built_prompt get_prompt format_prompt extended participants = Ok prompt ->
  (forall response,
      ai (all_messages_text extended) model prompt = Ok response ->
      exists by_name,
        parse_response response
        = Ok (default response (parse_overall response), by_name)
        /\ fst (generate_summaries get_prompt format_prompt str_of_exn ai
                  extended participants model)
           = (default response (parse_overall response), by_name))
  /\ (forall e,
        ai (all_messages_text extended) model prompt = Raise e ->
        fst (generate_summaries get_prompt format_prompt str_of_exn ai
               extended participants model)
        = (lit "Error generating unified summary: " ++ str_of_exn e, ∅)).
Proof.
  intros Hprompt. split.
  - intros response. by apply generate_summaries_answer.
  - intros e. by apply generate_summaries_failure.
Qed.

Lemma model_outcome_decides_summaries_witness :
  fst (generate_summaries sample_get_prompt sample_format_prompt
         sample_str_of_exn unreachable_model sample_chat
         (organize_by_participant sample_chat) (lit "m"))
  = (lit "Error generating unified summary: failure", ∅).
Proof.
  eapply (proj2 (model_outcome_decides_summaries sample_get_prompt
                   sample_format_prompt sample_str_of_exn unreachable_model
                   sample_chat (organize_by_participant sample_chat)
                   (lit "m") _ eq_refl)).
  reflexivity.
Defined.

(** X17. When the prompt cannot be loaded or filled in, the model is not
    called at all and the overall summary is the error text of the unbound
    prompt, with no participant summaries. *)
Theorem no_prompt_no_call get_prompt format_prompt str_of_exn ai
    (extended : list Message) (participants : list (str * list Message))
    (model : str) (e : exn) :
  built_prompt get_prompt format_prompt extended participants = Raise e ->
  generate_summaries get_prompt format_prompt str_of_exn ai
    extended participants model
  = ((lit "Error generating unified summary: " ++ str_of_exn NameError, ∅), []).
Proof. apply generate_summaries_no_prompt. Qed.

Lemma no_prompt_no_call_witness :
  snd (generate_summaries missing_prompt sample_format_prompt
         sample_str_of_exn sample_model sample_chat
         (organize_by_participant sample_chat) (lit "m")) = [].
Proof.
  by rewrite (no_prompt_no_call missing_prompt sample_format_prompt
                sample_str_of_exn sample_model sample_chat
                (organize_by_participant sample_chat) (lit "m") _ eq_refl).
Defined.

(** ** Formatting *)

Lemma clean_summary_error (detail : str) :
  clean_summary (lit "Error generating" ++ detail)
  = lit "*" ++ (lit "Error generating" ++ detail) ++ lit "*".
Proof. reflexivity. Qed.

(** X18. A summary that is the error text of a failed summarisation is shown
    between asterisks, whatever the failure was. *)
Theorem error_summary_is_starred (str_of_exn : exn -> str) (e : exn) :
  clean_summary (fst (error_summary str_of_exn e))
  = lit "*" ++ lit "Error generating unified summary: " ++ str_of_exn e
      ++ lit "*".
Proof. reflexivity. Qed.

(** X19. Of a summary that holds both think tags, and is not an error text,
    only what follows the first closing tag is kept, stripped, wherever the
    opening tag stands; a summary that lacks one of the tags is kept as it
    is. *)
Theorem think_block_is_removed (summary : str) :
  summary <> [] ->
  starts_with (lit "Error generating") summary = false ->
  (forall before answer,
      summary = before ++ lit "</think>" ++ answer ->
      first_at (lit "</think>") summary (length before) ->
      (exists k, occurs_at (lit "<think>") summary k) ->
      clean_summary summary = strip answer)
  /\ ((forall k, ~ occurs_at (lit "<think>") summary k)
      \/ (forall k, ~ occurs_at (lit "</think>") summary k) ->
      clean_summary summary = summary).
Proof.
  intros Hne Herr. unfold clean_summary.
  rewrite bool_decide_eq_false_2 by done. rewrite Herr. split.
  - intros before answer Hsummary Hclose Hopen.
    assert (contains (lit "<think>") summary = true) as ->
      by by apply contains_occurs.
    assert (contains (lit "</think>") summary = true) as ->.
    { apply contains_occurs. exists (length before). apply Hclose. }
    cbn [andb]. rewrite (find_first_at _ _ _ Hclose). f_equal.
    replace (Z.of_nat (length before) + len (lit "</think>"))
      with (len (before ++ lit "</think>"))
      by (unfold len; rewrite length_app; lia).
    rewrite Hsummary, app_assoc. apply slice_from_middle.
  - intros [Hopen|Hclose].
    + apply contains_false in Hopen. by rewrite Hopen.
    + apply contains_false in Hclose. by rewrite Hclose, andb_false_r.
Qed.

Lemma think_block_is_removed_witness :
  let summary := lit "<think>hmm</think>" ++ [newline] ++ lit "All agreed." in
  clean_summary summary = lit "All agreed.".
Proof.
  intros summary.
  rewrite (proj1 (think_block_is_removed summary ltac:(discriminate) eq_refl)
             (lit "<think>hmm") ([newline] ++ lit "All agreed.") eq_refl).
  - vm_compute. reflexivity.
  - apply first_at_by_index. vm_compute. reflexivity.
  - exists 0%nat. by exists (lit "hmm</think>" ++ [newline] ++ lit "All agreed.").
Defined.

(** The closing tag alone decides: text before an opening tag that comes
    later is lost with it. *)
Example think_tags_out_of_order :
  clean_summary (lit "Answer.</think> more <think>")
  = lit "more <think>".
Proof. vm_compute. reflexivity. Qed.

Section FormatFacts.

Variable json_dumps : Success -> str.
Variable items : gmap str str -> list (str * str).

(** X20. When the result holds an overall summary that is not empty, the
    output is the summary report whatever format was asked for. *)
Theorem format_is_ignored_with_summary (r : Success) (overall : str)
    (format1 format2 : str) :
  overall_summary r = Some overall -> overall <> [] ->
  format_results json_dumps items (StatusSuccess r) format1
  = Ok (format_summary_results items r)
  /\ format_results json_dumps items (StatusSuccess r) format1
     = format_results json_dumps items (StatusSuccess r) format2.
Proof.
  intros Hsummary Hne. unfold format_results. rewrite Hsummary.
  by destruct overall.
Qed.

Lemma target_names_Ok (targets : list Target) (position : Z) :
  (exists names, target_names targets position = Ok names)
  <-> forall n, TId n ∉ targets.
Proof.
  revert position. induction targets as [|[u|m] rest IH]; intros position; simpl.
  - split; [intros _ n; apply not_elem_of_nil|eauto].
  - split.
    + intros [names Hnames] n. rewrite not_elem_of_cons. split; [done|].
      destruct (target_names rest (position + 1)) as [ns|e] eqn:E; [|done].
      apply (proj1 (IH (position + 1))). eauto.
    + intros Hnone.
      destruct (proj2 (IH (position + 1))) as [ns ->]; [|simpl; eauto].
      intros n Hn. apply (Hnone n). by right.
  - split; [by intros [names ?]|]. intros Hnone. destruct (Hnone m). by left.
Qed.

Lemma users_line_Ok (label : str) (r : Success) :
  (exists line, users_line label r = Ok line)
  <-> forall targets n, target_users r = Some targets -> TId n ∉ targets.
Proof.
  unfold users_line. destruct (target_users r) as [[|t ts]|].
  - split; [|eauto]. intros _ targets n [= <-]. apply not_elem_of_nil.
  - unfold join_targets. split.
    + intros [line Hline] targets n [= <-].
      destruct (target_names (t :: ts) 0) as [names|e] eqn:E; [|done].
      apply (proj1 (target_names_Ok (t :: ts) 0)). eauto.
    + intros Hnone.
      destruct (proj2 (target_names_Ok (t :: ts) 0)) as [names ->];
        [intros n; by apply (Hnone (t :: ts) n)|simpl; eauto].
  - split; [|eauto]. by intros _ targets n.
Qed.

(** X21. The text and the markdown formats come out exactly when no target
    is a numeric identifier: joining the targets raises on the first number,
    although the filter accepts numbers. *)
Theorem plain_formats_need_named_targets (r : Success) :
  ((exists out, format_as_text r = Ok out)
   <-> forall targets n, target_users r = Some targets -> TId n ∉ targets)
  /\ ((exists out, format_as_markdown r = Ok out)
      <-> forall targets n, target_users r = Some targets -> TId n ∉ targets).
Proof.
  split.
  - rewrite <- (users_line_Ok (lit "Users: ") r). unfold format_as_text.
    destruct (users_line (lit "Users: ") r); simpl; split; eauto;
      by intros [? ?].
  - rewrite <- (users_line_Ok (lit "**Users**: ") r). unfold format_as_markdown.
    destruct (users_line (lit "**Users**: ") r); simpl; split; eauto;
      by intros [? ?].
Qed.

(** X22. A request that finds no message, unread or not, is reported as one
    line that starts with [Error: ], in every format, also when its status
    is [info]. *)
Theorem no_message_is_reported_as_error lower get_prompt format_prompt
    str_of_exn ai (unread_only : bool) (title : str)
    (targets : option (list Target)) (model format_type : str) :
  format_results json_dumps items
    (fst (analyze_messages lower get_prompt format_prompt str_of_exn ai
            unread_only [] title targets model))
    format_type
  = Ok (lit "Error: "
          ++ (if unread_only
              then lit "No unread messages found in the specified chat"
              else lit "No messages found in the specified chat")).
Proof. by destruct unread_only. Qed.

End FormatFacts.

Lemma format_is_ignored_with_summary_witness :
  exists r, fst (sample_analysis (Some [TName (lit "@Bob")])) = StatusSuccess r
            /\ format_results (fun _ => lit "{}") map_to_list (StatusSuccess r)
                 (lit "json")
               = format_results (fun _ => lit "{}") map_to_list
                   (StatusSuccess r) (lit "text").
Proof.
  eexists. split; [vm_compute; reflexivity|].
  eapply (format_is_ignored_with_summary (fun _ => lit "{}") map_to_list);
    [reflexivity|discriminate].
Defined.

Example numeric_target_breaks_text_format :
  exists r e, fst (sample_analysis (Some [TId 99])) = StatusSuccess r
              /\ format_results (fun _ => lit "{}") map_to_list
                   (StatusSuccess r) (lit "text") = Raise e.
Proof.
  eexists _, _. split; [vm_compute; reflexivity|]. vm_compute. reflexivity.
Qed.

(** ** Fetching *)

Lemma join_space_nonempty (parts : list str) :
  parts <> [] -> Forall (fun part => part <> []) parts ->
  join (lit " ") parts <> [].
Proof. apply join_nonempty. Qed.

Lemma truthy_Some (x : option str) :
  truthy x = true -> exists c rest, x = Some (c :: rest).
Proof. destruct x as [[|c rest]|]; simpl; [done|eauto|done]. Qed.

(** X23. A user with a username is shown as [@] and the username, and the
    name shown for a missing sender, a user or a channel is never empty. *)
Theorem display_name_is_never_empty :
  (forall username first_name last_name,
      truthy (Some username) = true ->
      get_user_display_name (Some (User (Some username) first_name last_name))
      = lit "@" ++ username)
  /\ get_user_display_name None <> []
  /\ (forall username first_name last_name,
        get_user_display_name (Some (User username first_name last_name)) <> [])
  /\ (forall title, get_user_display_name (Some (Channel title)) <> []).
Proof.
  split_and!.
  - intros username first_name last_name Hu. simpl in *. by rewrite Hu.
  - done.
  - intros username first_name last_name. simpl.
    destruct (truthy username); [done|].
    destruct (truthy first_name) eqn:Hf, (truthy last_name) eqn:Hl; simpl;
      try done.
    + apply truthy_Some in Hf as (c & rest & ->). done.
    + apply truthy_Some in Hf as (c & rest & ->). done.
    + apply truthy_Some in Hl as (c & rest & ->). done.
  - intros title. simpl. destruct (truthy title) eqn:Ht; [|done].
    apply truthy_Some in Ht as (c & rest & ->). done.
Qed.

Lemma display_name_is_never_empty_witness :
  truthy (Some (lit "bob")) = true
  /\ get_user_display_name (Some (User (Some (lit "bob")) (Some (lit "Bob")) None))
     = lit "@bob".
Proof.
  split; [reflexivity|].
  apply (proj1 display_name_is_never_empty (lit "bob") (Some (lit "Bob")) None).
  reflexivity.
Defined.

Section FetchFacts.

Variable isoformat : Z -> str.
Variable strftime : Z -> str.

Lemma msg_dict_well_formed (message : RawMessage) :
  truthy (raw_text message) = true ->
  well_formed (msg_dict isoformat strftime message).
Proof.
  intros Htext. unfold well_formed, msg_dict. cbn. split_and!.
  - apply truthy_Some in Htext as (c & rest & ->). done.
  - unfold forwarded_fields. destruct (raw_fwd_from message); simpl.
    + split; [eauto|done].
    + split; [done|]. by intros [? ?].
  - unfold sender_fields.
    destruct (raw_sender message) as [[[sender sid]|]|e]; simpl; done.
  - by intros ->.
Qed.

Lemma fetch_loop_invariants (datetime_from : option Z)
    (stream : list (result RawMessage)) (messages : list Message) :
  fetch_loop isoformat strftime datetime_from stream = Ok messages ->
  Forall well_formed messages
  /\ (id <$> messages) `sublist_of` raw_ids stream
  /\ (forall msg, msg ∈ messages ->
        exists message,
          Ok message ∈ stream /\ msg = msg_dict isoformat strftime message
          /\ truthy (raw_text message) = true
          /\ (forall from, datetime_from = Some from ->
                           from <= raw_date message)).
Proof.
  revert messages. induction stream as [|[message|e] rest IH]; intros messages;
    simpl; [intros [= <-]|..|done].
  { split_and!; [constructor|done|]. intros msg Hin. by apply elem_of_nil in Hin. }
  destruct (match datetime_from with Some from => _ | None => _ end) eqn:Hold.
  { intros [= <-]. split_and!; [constructor|apply sublist_nil_l|].
    intros msg Hin. by apply elem_of_nil in Hin. }
  assert (forall from, datetime_from = Some from -> from <= raw_date message)
    as Hrecent.
  { intros from ->. apply Z.ltb_ge in Hold. lia. }
  destruct (truthy (raw_text message)) eqn:Htext; simpl.
  - destruct (fetch_loop _ _ _ rest) as [kept|e]; [|done]. simpl.
    intros [= <-]. destruct (IH kept eq_refl) as (Hwf & Hsub & Hfrom).
    split_and!.
    + constructor; [by apply msg_dict_well_formed|done].
    + rewrite fmap_cons. by apply sublist_skip.
    + intros msg Hin. apply elem_of_cons in Hin as [->|Hin].
      * exists message. split_and!; [by left|done|done|done].
      * destruct (Hfrom msg Hin) as (raw & Hraw & Hrest).
        exists raw. split; [by right|done].
  - intros Hrest. destruct (IH messages Hrest) as (Hwf & Hsub & Hfrom).
    split_and!; [done|by apply sublist_cons|].
    intros msg Hin. destruct (Hfrom msg Hin) as (raw & Hraw & Hmore).
    exists raw. split; [by right|done].
Qed.

Lemma fetch_loop_cut (from : Z) (pre post : list (result RawMessage))
    (old : RawMessage) :
  raw_date old < from ->
  fetch_loop isoformat strftime (Some from) (pre ++ Ok old :: post)
  = fetch_loop isoformat strftime (Some from) pre.
Proof.
  intros Hold. induction pre as [|[message|e] pre IH]; simpl.
  - by destruct (Z.ltb_spec (raw_date old) from); [|lia].
  - destruct (raw_date message <? from); [done|].
    destruct (negb (truthy (raw_text message))); [done|]. by rewrite IH.
  - done.
Qed.

Lemma fetch_loop_failure (datetime_from : option Z)
    (pre post : list (result RawMessage)) (e : exn) :
  (forall message from, Ok message ∈ pre -> datetime_from = Some from ->
                        from <= raw_date message) ->
  exists e', fetch_loop isoformat strftime datetime_from
               (pre ++ Raise e :: post) = Raise e'.
Proof.
  intros Hrecent. induction pre as [|[message|e0] pre IH]; simpl; [eauto| |eauto].
  assert (match datetime_from with
          | Some from => raw_date message <? from
          | None => false
          end = false) as ->.
  { destruct datetime_from as [from|]; [|done]. apply Z.ltb_ge.
    apply (Hrecent message from); [by left|done]. }
  destruct IH as [e' He'].
  { intros m from Hm. apply Hrecent. by right. }
  destruct (negb (truthy (raw_text message))); [eauto|].
  rewrite He'. simpl. eauto.
Qed.

End FetchFacts.

(** X24. Every message the fetch keeps has a text that is not empty, is
    marked as forwarded exactly when it names a source, is called [Unknown]
    when it has no sender id and has no reply target unless it is a reply;
    the ids come in the order of the platform, so distinct ids stay
    distinct. *)
Theorem fetched_messages_are_well_formed isoformat strftime
    (datetime_from : option Z) (stream : list (result RawMessage)) :
  let messages := fetch_messages isoformat strftime datetime_from stream in
  Forall well_formed messages
  /\ (id <$> messages) `sublist_of` raw_ids stream
  /\ (NoDup (raw_ids stream) -> NoDup (id <$> messages)).
Proof.
  intros messages. subst messages. unfold fetch_messages.
  destruct (fetch_loop isoformat strftime datetime_from stream)
    as [messages|e] eqn:Hloop.
  - destruct (fetch_loop_invariants _ _ _ _ _ Hloop) as (Hwf & Hsub & _).
    split_and!; [done|done|]. intros Hnd. by eapply sublist_NoDup.
  - split_and!; [constructor|apply sublist_nil_l|]. intros _. constructor.
Qed.

Lemma fetched_messages_are_well_formed_witness :
  NoDup (raw_ids raw_stream)
  /\ NoDup (id <$> fetch_messages of_int of_int (Some 25) raw_stream).
Proof.
  assert (NoDup (raw_ids raw_stream)) as Hnd
    by (apply (bool_decide_unpack _); vm_compute; exact I).
  split; [exact Hnd|].
  by apply (fetched_messages_are_well_formed of_int of_int (Some 25) raw_stream).
Defined.

(** X25. With a time limit the fetch reads nothing at or after the first
    message older than the limit: what follows it, newer messages and
    failures included, has no effect, and every message kept comes from a
    raw message with a text that is not older than the limit. *)
Theorem fetch_stops_at_old_message isoformat strftime (from : Z)
    (pre post : list (result RawMessage)) (old : RawMessage) :
  raw_date old < from ->
  fetch_messages isoformat strftime (Some from) (pre ++ Ok old :: post)
  = fetch_messages isoformat strftime (Some from) pre
  /\ (forall msg,
        msg ∈ fetch_messages isoformat strftime (Some from)
                (pre ++ Ok old :: post) ->
        exists message,
          Ok message ∈ pre /\ msg = msg_dict isoformat strftime message
          /\ truthy (raw_text message) = true /\ from <= raw_date message).
Proof.
  intros Hold. unfold fetch_messages. rewrite fetch_loop_cut by done.
  split; [done|]. intros msg Hin.
  destruct (fetch_loop isoformat strftime (Some from) pre)
    as [messages|e] eqn:Hloop; [|by apply elem_of_nil in Hin].
  destruct (fetch_loop_invariants _ _ _ _ _ Hloop) as (_ & _ & Hfrom).
  destruct (Hfrom msg Hin) as (message & Hmessage & -> & Htext & Hrecent).
  exists message. split_and!; try done. by apply Hrecent.
Qed.

Lemma fetch_stops_at_old_message_witness :
  id <$> fetch_messages of_int of_int (Some 25) raw_stream = [5; 3].
Proof.
  change raw_stream
    with ([Ok (raw_sample 5 50 (Some (lit "five"))); Ok (raw_sample 4 40 None);
           Ok (raw_sample 3 30 (Some (lit "three")))]
            ++ Ok (raw_sample 2 20 (Some (lit "two")))
            :: [Raise (OtherError (lit "timeout"))]).
  rewrite (proj1 (fetch_stops_at_old_message of_int of_int 25
                    [Ok (raw_sample 5 50 (Some (lit "five")));
                     Ok (raw_sample 4 40 None);
                     Ok (raw_sample 3 30 (Some (lit "three")))]
                    [Raise (OtherError (lit "timeout"))]
                    (raw_sample 2 20 (Some (lit "two"))) eq_refl)).
  vm_compute. reflexivity.
Defined.

(** X26. A failure of the platform before any message older than the limit
    leaves no message at all: what was read before it is dropped. *)
Theorem fetch_failure_leaves_nothing isoformat strftime
    (datetime_from : option Z) (pre post : list (result RawMessage))
    (e : exn) :
  (forall message from, Ok message ∈ pre -> datetime_from = Some from ->
                        from <= raw_date message) ->
  fetch_messages isoformat strftime datetime_from (pre ++ Raise e :: post) = [].
Proof.
  intros Hrecent. unfold fetch_messages.
  by destruct (fetch_loop_failure isoformat strftime datetime_from pre post e
                 Hrecent) as [e' ->].
Qed.

Lemma fetch_failure_leaves_nothing_witness :
  fetch_messages of_int of_int None raw_stream = [].
Proof.
  change raw_stream
    with ([Ok (raw_sample 5 50 (Some (lit "five"))); Ok (raw_sample 4 40 None);
           Ok (raw_sample 3 30 (Some (lit "three")));
           Ok (raw_sample 2 20 (Some (lit "two")))]
            ++ Raise (OtherError (lit "timeout")) :: []).
  apply fetch_failure_leaves_nothing. intros message from _ Hfrom. discriminate.
Defined.

Lemma groups_are_the_senders_messages_witness :
  bob_reply ∈ sample_chat
  /\ (sender_name bob_reply,
      filter (fun other => sender_name other = sender_name bob_reply) sample_chat)
     ∈ organize_by_participant sample_chat.
Proof.
  assert (bob_reply ∈ sample_chat) as Hin by (by left).
  split; [exact Hin|].
  exact (proj1 (proj2 (groups_are_the_senders_messages sample_chat))
           bob_reply Hin).
Defined.
